(** * Invoice RAG pipeline: chunking, indexing and retrieval

    A shallow embedding of [src/app/invoice_rag.py]: the text extractor
    [load_pdf_text], the chunker [chunk_text], the indexing pipeline
    [index_pdf] and the retrieval pipeline [retrieve_context], with the
    properties the specification states about them. *)

From Stdlib Require Import ZArith Lia Ascii String DecimalString DecimalNat.
From stdpp Require Import gmap strings list.

Local Open Scope Z_scope.

(** ** Python values

    A Python [str] is a sequence of characters; the characters of the model
    are the code points below 256.  Python integers are unbounded: [Z]. *)

Abbreviation str := (list ascii).

Definition py_len (s : str) : Z := Z.of_nat (length s).

(** A literal of the source. *)
Definition lit (s : string) : str := list_ascii_of_string s.

(** Index adjustment of a slice bound, as CPython does it for a sequence of
    length [len]: a negative bound counts from the end, and the result is
    clamped to [0 .. len]. *)
Definition adjust_index (len i : Z) : Z :=
  if i <? 0 then Z.max (i + len) 0 else Z.min i len.

(** [text[start:stop]]. *)
Definition slice (text : str) (start stop : Z) : str :=
  let lo := adjust_index (py_len text) start in
  let hi := adjust_index (py_len text) stop in
  take (Z.to_nat (hi - lo)) (drop (Z.to_nat lo) text).

(** ** The chunker

<<
def chunk_text(text, chunk_size=800, overlap=120):
    chunks = []
    start = 0
    while start < len(text):
        end = start + chunk_size
        chunks.append(text[start:end])
        start = end - overlap
    return chunks
>>

    The [while] loop is not structurally recursive, and it does not terminate
    when [chunk_size <= overlap] on a non-empty text.  [chunk_loop] runs at
    most [fuel] tests of the loop condition; [None] means the fuel ran out. *)

Fixpoint chunk_loop (fuel : nat) (text : str) (chunk_size overlap : Z)
    (start : Z) (chunks : list str) : option (list str) :=
  match fuel with
  | O => None
  | S fuel' =>
      if start <? py_len text then
        let end_ := start + chunk_size in
        chunk_loop fuel' text chunk_size overlap (end_ - overlap)
                   (chunks ++ [slice text start end_])
      else Some chunks
  end.

(** With a positive stride the loop condition is tested at most
    [len(text) + 1] times, so this fuel is enough whenever the loop
    terminates at all ([chunk_text_fuel_complete] below). *)
Definition chunk_text (text : str) (chunk_size overlap : Z) : option (list str) :=
  chunk_loop (S (length text)) text chunk_size overlap 0 [].

Definition default_chunk_size : Z := 800.
Definition default_overlap : Z := 120.

(** The windows the loop appends, in closed form: [n] windows of width
    [chunk_size], the first at [start], each [chunk_size - overlap] after the
    one before. *)
Fixpoint windows (text : str) (chunk_size overlap : Z) (n : nat) (start : Z)
    : list str :=
  match n with
  | O => []
  | S n' => slice text start (start + chunk_size)
            :: windows text chunk_size overlap n' (start + chunk_size - overlap)
  end.

(** Ceiling of [a / b] for [0 < b]. *)
Definition ceil_div (a b : Z) : Z := (a + b - 1) / b.

(** Number of loop iterations still to run from [start]. *)
Definition iterations (len chunk_size overlap start : Z) : nat :=
  Z.to_nat (ceil_div (len - start) (chunk_size - overlap)).

(** ** Strings of the pipeline *)

Definition newline : ascii := ascii_of_nat 10.

(** [str(i)] for a non-negative integer. *)
Definition str_of_nat (i : nat) : str := lit (NilZero.string_of_uint (Nat.to_uint i)).

(** [sep.join(l)]. *)
Fixpoint join (sep : str) (l : list str) : str :=
  match l with
  | [] => []
  | x :: l' => match l' with [] => x | _ :: _ => x ++ sep ++ join sep l' end
  end.

(** [c.isspace()] for a code point below 256: the ASCII white space
    (tab, line feed, vertical tab, form feed, carriage return, space), the
    separators 0x1c to 0x1f, NEL 0x85 and the no-break space 0xa0. *)
Definition isspace (c : ascii) : bool :=
  let n := nat_of_ascii c in
  ((9 <=? n) && (n <=? 13) || (28 <=? n) && (n <=? 32)
   || (n =? 133) || (n =? 160))%nat.

Fixpoint lstrip (s : str) : str :=
  match s with
  | [] => []
  | c :: s' => if isspace c then lstrip s' else s
  end.

Definition rstrip (s : str) : str := reverse (lstrip (reverse s)).

(** [s.strip()]. *)
Definition strip (s : str) : str := rstrip (lstrip s).

(** Truth value of a string or of a list: non-empty. *)
Definition truthy {A} (l : list A) : bool :=
  match l with [] => false | _ :: _ => true end.

(** [enumerate(l)], counting from [i]. *)
Fixpoint enumerate_from {A} (i : nat) (l : list A) : list (nat * A) :=
  match l with
  | [] => []
  | x :: l' => (i, x) :: enumerate_from (S i) l'
  end.

Definition enumerate {A} (l : list A) : list (nat * A) := enumerate_from 0 l.

(** ** Text extractor

<<
def load_pdf_text(pdf_path):
    reader = PdfReader(pdf_path)
    pages = []
    for i, page in enumerate(reader.pages):
        text = page.extract_text()
        if text:
            pages.append(f"[Page {i+1}]\n{text}")
    return "\n".join(pages)
>>

    [page_texts] is what [page.extract_text()] gives for each page of the
    reader, in order. *)

Definition page_entry (i : nat) (text : str) : str :=
  lit "[Page " ++ str_of_nat (i + 1) ++ lit "]" ++ [newline] ++ text.

Definition load_pages_step (pages : list str) (ip : nat * str) : list str :=
  let '(i, text) := ip in
  if truthy text then pages ++ [page_entry i text] else pages.

Definition join_pages (page_texts : list str) : str :=
  join [newline] (fold_left load_pages_step (enumerate page_texts) []).

(** ** Chunk records of the indexing pipeline *)

(** The metadata dictionary [{"source": filename, "chunk": i}]. *)
Record metadata := Metadata { source : str; chunk : nat }.

(** [f"{stem}_{i}"]. *)
Definition chunk_id (stem : str) (i : nat) : str := stem ++ lit "_" ++ str_of_nat i.

(** The three lists the [for] loop of [index_pdf] builds. *)
Record batch := Batch {
  all_chunks : list str;
  metadatas : list metadata;
  ids : list str }.

(** One iteration of
<<
for i, chunk in enumerate(chunks):
    if chunk.strip():
        all_chunks.append(chunk)
        metadatas.append({"source": filename, "chunk": i})
        ids.append(f"{stem}_{i}")
>> *)
Definition index_step (filename stem : str) (b : batch) (ic : nat * str) : batch :=
  let '(i, chunk) := ic in
  if truthy (strip chunk) then
    Batch (all_chunks b ++ [chunk])
          (metadatas b ++ [Metadata filename i])
          (ids b ++ [chunk_id stem i])
  else b.

Definition build_batch (filename stem : str) (chunks : list str) : batch :=
  fold_left (index_step filename stem) (enumerate chunks) (Batch [] [] []).

(** ** External collaborators and the state of the process

    The PDF library, [pathlib], the embedding service and the vector store
    are not code of this repository.  The first three, and the ranking of the
    store, are taken as parameters, with no assumption on what they compute;
    the entries of the vector store are modelled from its specification
    below. *)

Abbreviation bytes := (list ascii) (only parsing).

Inductive exn :=
  | FileNotFoundError
  | ExtractionError
  | EmbeddingServiceError
  | LengthMismatchError
  | DimensionMismatchError
  | IndexError.

(** A stored entry: embedding, document text, metadata. *)
Record entry (scalar : Type) := Entry {
  e_embedding : list scalar;
  e_document : str;
  e_metadata : metadata }.
Arguments Entry {scalar}.
Arguments e_embedding {scalar}.
Arguments e_document {scalar}.
Arguments e_metadata {scalar}.

(** Calls that leave the process, in the order they are made. *)
Inductive event (scalar : Type) :=
  | EmbedCall (input : list str)
  | AddCall (documents : list str) (metas : list metadata)
            (embeddings : list (list scalar)) (ids_ : list str)
  | QueryCall (query_embedding : list scalar) (n_results : nat).
Arguments EmbedCall {scalar}.
Arguments AddCall {scalar}.
Arguments QueryCall {scalar}.

Record world (scalar : Type) := World {
  collection : gmap str (entry scalar);
  dimension : option nat;
  trace : list (event scalar);
  tmp_files : gmap nat bytes;
  next_tmp : nat }.
Arguments World {scalar}.
Arguments collection {scalar}.
Arguments dimension {scalar}.
Arguments trace {scalar}.
Arguments tmp_files {scalar}.
Arguments next_tmp {scalar}.

(** - [pdf_reader b]: the text [extract_text()] gives for each page of the PDF
      [b], or [None] when the PDF library raises;
    - [path_stem f]: [Path(f).stem];
    - [embedding_service t input]: the vectors the embedding service answers
      to the request [input] after the calls [t], or [None] when the call
      raises;
    - [nearest m q k]: the documents of the (at most) [k] entries of [m]
      nearest to [q], best first. *)
Record services := Services {
  scalar : Type;
  pdf_reader : bytes -> option (list str);
  path_stem : str -> str;
  embedding_service : list (event scalar) -> list str -> option (list (list scalar));
  nearest : gmap str (entry scalar) -> list scalar -> nat -> list str }.

(** ** Effects: state, exceptions, divergence *)

Inductive outcome (A : Type) :=
  | Return (a : A)
  | Raise (e : exn)
  | Diverge.
Arguments Return {A}.
Arguments Raise {A}.
Arguments Diverge {A}.

Definition M (sv : services) (A : Type) : Type :=
  world (scalar sv) -> outcome A * world (scalar sv).

Global Instance M_ret sv : MRet (M sv) := fun A a w => (Return a, w).

Global Instance M_bind sv : MBind (M sv) := fun A B f m w =>
  match m w with
  | (Return a, w') => f a w'
  | (Raise e, w') => (Raise e, w')
  | (Diverge, w') => (Diverge, w')
  end.

Definition raise {sv A} (e : exn) : M sv A := fun w => (Raise e, w).

Definition diverge {sv A} : M sv A := fun w => (Diverge, w).

(** [try: body finally: fin]. *)
Definition try_finally {sv A} (body : M sv A) (fin : M sv unit) : M sv A := fun w =>
  match body w with
  | (Diverge, w') => (Diverge, w')
  | (out, w') =>
      match fin w' with
      | (Return _, w'') => (out, w'')
      | (Raise e, w'') => (Raise e, w'')
      | (Diverge, w'') => (Diverge, w'')
      end
  end.

Definition log {sv} (ev : event (scalar sv)) : M sv unit := fun w =>
  (Return (), World (collection w) (dimension w) (trace w ++ [ev])
                    (tmp_files w) (next_tmp w)).

(** ** Temporary files *)

(** [tempfile.NamedTemporaryFile(delete=False, suffix=".pdf")], written with
    [content]; the result is the path of the file.  Creating the file,
    reading the upload and writing the file are taken to succeed: a failure
    there, which in the source comes before the [try] and leaves the file,
    is not an outcome of this model. *)
Definition named_temporary_file {sv} (content : bytes) : M sv nat := fun w =>
  (Return (next_tmp w),
   World (collection w) (dimension w) (trace w)
         (<[next_tmp w := content]> (tmp_files w)) (S (next_tmp w))).

(** [os.unlink(path)]. *)
Definition unlink {sv} (path : nat) : M sv unit := fun w =>
  match tmp_files w !! path with
  | None => (Raise FileNotFoundError, w)
  | Some _ =>
      (Return (), World (collection w) (dimension w) (trace w)
                        (delete path (tmp_files w)) (next_tmp w))
  end.

Definition load_pdf_text {sv} (pdf_path : nat) : M sv str := fun w =>
  match tmp_files w !! pdf_path with
  | None => (Raise FileNotFoundError, w)
  | Some content =>
      match pdf_reader sv content with
      | None => (Raise ExtractionError, w)
      | Some page_texts => (Return (join_pages page_texts), w)
      end
  end.

(** ** Embedding service *)

(** [openai_client.embeddings.create(model=..., input=input).data], each
    item already reduced to its [.embedding]; a request with one string for
    [input] is the request with that one input. *)
Definition embeddings_create {sv} (input : list str) : M sv (list (list (scalar sv))) :=
  fun w =>
    let answer := embedding_service sv (trace w) input in
    match log (EmbedCall input) w with
    | (_, w') =>
        match answer with
        | None => (Raise EmbeddingServiceError, w')
        | Some data => (Return data, w')
        end
    end.

(** ** Vector store *)

(** Modelled from the spec: the collection of the vector store (chromadb,
    not code of this repository) is a mapping from chunk id to (embedding,
    document text, metadata), and [count()] is the current number of stored
    entries. *)
Definition collection_count {sv} : M sv Z := fun w =>
  (Return (Z.of_nat (size (collection w))), w).

(** Modelled from the spec: every stored entry has the collection's fixed
    dimensionality, which the first embedding stored determines; the result
    is the dimensionality after the embeddings are accepted, [None] when one
    of them has another length. *)
Fixpoint check_dimension {scalar} (dim : option nat)
    (embeddings : list (list scalar)) : option (option nat) :=
  match embeddings with
  | [] => Some dim
  | e :: es =>
      match dim with
      | None => check_dimension (Some (length e)) es
      | Some d =>
          if decide (length e = d) then check_dimension dim es else None
      end
  end.

(** Modelled from the spec: [add] inserts or overwrites by id; an id already
    present is fully replaced. *)
Fixpoint insert_entries {scalar} (ids_ : list str) (documents : list str)
    (embeddings : list (list scalar)) (metas : list metadata)
    (m : gmap str (entry scalar)) : gmap str (entry scalar) :=
  match ids_, documents, embeddings, metas with
  | i :: ids', d :: documents', e :: embeddings', mt :: metas' =>
      insert_entries ids' documents' embeddings' metas' (<[i := Entry e d mt]> m)
  | _, _, _, _ => m
  end.

(** Modelled from the spec: the four sequences given to [add] must have
    equal length. *)
Definition same_lengths {scalar} (documents : list str) (metas : list metadata)
    (embeddings : list (list scalar)) (ids_ : list str) : bool :=
  bool_decide (length documents = length ids_
               ∧ length metas = length ids_
               ∧ length embeddings = length ids_).

(** Modelled from the spec: [collection.add(documents=, metadatas=,
    embeddings=, ids=)] of the vector store; all four sequences must have
    equal length, an embedding of another dimensionality must fail, and the
    entries are stored in one step. *)
Definition collection_add {sv} (documents : list str) (metas : list metadata)
    (embeddings : list (list (scalar sv))) (ids_ : list str) : M sv unit :=
  log (AddCall documents metas embeddings ids_);;
  ((fun w =>
    if same_lengths documents metas embeddings ids_ then
      match check_dimension (dimension w) embeddings with
      | None => (Raise DimensionMismatchError, w)
      | Some dim =>
          (Return (),
           World (insert_entries ids_ documents embeddings metas (collection w))
                 dim (trace w) (tmp_files w) (next_tmp w))
      end
    else (Raise LengthMismatchError, w)) : M sv unit).

(** Modelled from the spec: [collection.query(query_embeddings=[q],
    n_results=k)["documents"][0]] of the vector store, the documents of the
    nearest entries in ranking order. *)
Definition collection_query {sv} (q : list (scalar sv)) (k : nat) : M sv (list str) :=
  log (QueryCall q k);;
  ((fun w => (Return (nearest sv (collection w) q k), w)) : M sv (list str)).

(** Modelled from the spec: [clear_collection] of the source deletes the
    collection and creates it again ([chroma.delete_collection],
    [chroma.get_or_create_collection]), which leaves an empty collection. *)
Definition clear_collection {sv} : M sv unit := fun w =>
  (Return (), World ∅ None (trace w) (tmp_files w) (next_tmp w)).

(** ** Indexing pipeline

<<
def index_pdf(pdf_file, filename):
    with tempfile.NamedTemporaryFile(delete=False, suffix=".pdf") as tmp_file:
        tmp_file.write(pdf_file.read())
        tmp_path = tmp_file.name
    try:
        text = load_pdf_text(tmp_path)
        chunks = chunk_text(text)
        if not chunks:
            return 0
        all_chunks = []; metadatas = []; ids = []
        stem = Path(filename).stem
        for i, chunk in enumerate(chunks): ...
        if not all_chunks:
            return 0
        embeddings = openai_client.embeddings.create(
            model="text-embedding-3-large", input=all_chunks).data
        collection.add(documents=all_chunks, metadatas=metadatas,
                       embeddings=[e.embedding for e in embeddings], ids=ids)
        return len(all_chunks)
    finally:
        os.unlink(tmp_path)
>> *)

Definition index_chunks {sv} (filename : str) (chunks : list str) : M sv Z :=
  if negb (truthy chunks) then mret 0
  else
    let stem := path_stem sv filename in
    let b := build_batch filename stem chunks in
    if negb (truthy (all_chunks b)) then mret 0
    else
      embeddings ← embeddings_create (all_chunks b);
      collection_add (all_chunks b) (metadatas b) embeddings (ids b);;
      mret (Z.of_nat (length (all_chunks b))).

Definition index_pdf {sv} (pdf_file : bytes) (filename : str) : M sv Z :=
  tmp_path ← named_temporary_file pdf_file;
  try_finally
    (text ← load_pdf_text tmp_path;
     match chunk_text text default_chunk_size default_overlap with
     | None => diverge
     | Some chunks => index_chunks filename chunks
     end)
    (unlink tmp_path).

(** ** Retrieval pipeline

<<
def retrieve_context(question):
    if collection.count() == 0:
        return "No documents have been indexed yet. Please upload some invoices first."
    q_embedding = openai_client.embeddings.create(
        model="text-embedding-3-large", input=question).data[0].embedding
    results = collection.query(query_embeddings=[q_embedding], n_results=4)
    if not results["documents"][0]:
        return "No relevant context found."
    return "\n\n".join(results["documents"][0])
>> *)

Definition no_documents_indexed : str :=
  lit "No documents have been indexed yet. Please upload some invoices first.".

Definition no_relevant_context : str := lit "No relevant context found.".

Definition retrieve_context {sv} (question : str) : M sv str :=
  n ← collection_count;
  if n =? 0 then mret no_documents_indexed
  else
    data ← embeddings_create [question];
    match data with
    | [] => raise IndexError
    | q_embedding :: _ =>
        documents ← collection_query q_embedding 4;
        if negb (truthy documents) then mret no_relevant_context
        else mret (join [newline; newline] documents)
    end.

(** ** Notions the properties are stated with *)

(** A chunk the indexing loop keeps: [chunk.strip()] is not empty. *)
Definition nonblank (chunk : str) : bool := truthy (strip chunk).


(** Concatenation of the [(chunk_size - overlap)]-length prefixes of the
    chunks. *)
Definition stride_prefixes (chunk_size overlap : Z) (chunks : list str) : str :=
  concat (map (take (Z.to_nat (chunk_size - overlap))) chunks).

(** Some window of the chunker's output is the empty string, for a text
    whose length is a multiple of the stride. *)
Definition empty_window_at_multiple (chunk_size overlap : Z) : Prop :=
  ∃ text chunks,
    py_len text mod (chunk_size - overlap) = 0
    ∧ chunk_text text chunk_size overlap = Some chunks
    ∧ [] ∈ chunks.

(** The events a run added to the trace. *)
Definition new_events {scalar} (w w' : world scalar) : list (event scalar) :=
  drop (length (trace w)) (trace w').

(** The embedding service keeps its contract: when it answers, it answers
    one vector for each input text, the texts being non-empty. *)
Definition one_vector_per_input (sv : services) : Prop :=
  ∀ t input data,
    Forall (λ text, text ≠ []) input →
    embedding_service sv t input = Some data → length data = length input.


(** The chunks the loop of [index_pdf] keeps, each with its index in the
    sequence [chunk_text] returned. *)
Definition kept_chunks (chunks : list str) : list (nat * str) :=
  List.filter (λ ic, nonblank ic.2) (enumerate chunks).

(** The world after the temporary file of a run is written and unlinked. *)
Definition after_tmp {scalar} (pdf_file : bytes) (w : world scalar) : world scalar :=
  World (collection w) (dimension w) (trace w)
        (delete (next_tmp w) (<[next_tmp w := pdf_file]> (tmp_files w)))
        (S (next_tmp w)).

Definition with_trace {scalar} (t : list (event scalar)) (w : world scalar)
    : world scalar :=
  World (collection w) (dimension w) t (tmp_files w) (next_tmp w).

(** ** Concrete collaborators, to run the pipeline on examples *)

(** The name up to its last dot (the whole name when it has none). *)
Fixpoint drop_suffix (name : str) : option str :=
  match name with
  | [] => None
  | c :: name' =>
      match drop_suffix name' with
      | Some s => Some (c :: s)
      | None => if Ascii.eqb c "." then Some [] else None
      end
  end.

Definition sample_services : services := {|
  scalar := Z;
  pdf_reader := fun content => Some [content];
  path_stem := fun name => default name (drop_suffix name);
  embedding_service := fun _ input => Some (map (fun s => [py_len s]) input);
  nearest := fun m _ k => take k (map (fun p => e_document p.2) (map_to_list m)) |}.

Definition empty_world : world Z := World ∅ None [] ∅ 0.

(** A one-page upload and its file name. *)
Definition invoice_pdf : bytes := lit "Invoice 42".
Definition invoice_name : str := lit "invoice.pdf".

(** A text of [n] visible characters. *)
Definition letters (n : nat) : str := repeat "x"%char n.

(** A page full of text: with its page marker, 2000 characters. *)
Definition dense_page : str := letters 1991.

(** A page with a word at its top, a word at its bottom and white space in
    between: with its page marker, 2000 characters. *)
Definition sparse_page : str := lit "x" ++ repeat " "%char 1989 ++ lit "y".

(** ** Upload handler

<<
if uploaded_files:
    ...
    if st.button("Upload & Index", type="primary"):
        progress_bar = st.progress(0)
        status_text = st.empty()
        total_chunks = 0
        indexed_count = 0
        for i, file in enumerate(uploaded_files):
            status_text.text(f"Processing: {file.name}")
            try:
                chunks = index_pdf(file, file.name)
                total_chunks += chunks
                indexed_count += 1
                st.session_state.indexed_files.append(file.name)
            except Exception as e:
                st.error(f"Error processing {file.name}: {str(e)}")
            progress_bar.progress((i + 1) / len(uploaded_files))
        status_text.text("")
        st.success(f"Indexed {indexed_count} file(s) with {total_chunks} chunks")
>>

    The handler as it runs when the button is pressed. *)

(** An uploaded file: its name and the bytes [read()] gives. *)
Record uploaded_file := Upload { file_name : str; file_content : bytes }.

(** What the handler shows; the text of an exception is not modelled, and a
    progress fraction is kept as its numerator and denominator.  Creating the
    bar ([st.progress(0)]) and the status line ([st.empty()]) shows nothing
    of the run and is no event. *)
Inductive ui_event :=
  | StatusText (text : str)
  | ErrorBox (name : str) (e : exn)
  | Progress (numerator denominator : nat)
  | SuccessBox (indexed_count total_chunks : Z).

(** The variables of the handler, [st.session_state.indexed_files] and the
    page. *)
Record upload_state := UploadState {
  total_chunks : Z;
  indexed_count : Z;
  indexed_files : list str;
  ui : list ui_event }.

(** One iteration of the [for] loop over [enumerate(uploaded_files)]. *)
Definition upload_step {sv} (n_files : nat) (st : upload_state)
    (ifile : nat * uploaded_file) : M sv upload_state := fun w =>
  let '(i, file) := ifile in
  let shown := ui st ++ [StatusText (lit "Processing: " ++ file_name file)] in
  match index_pdf (sv:=sv) (file_content file) (file_name file) w with
  | (Return chunks, w') =>
      (Return (UploadState (total_chunks st + chunks) (indexed_count st + 1)
                 (indexed_files st ++ [file_name file])
                 (shown ++ [Progress (i + 1) n_files])), w')
  | (Raise e, w') =>
      (Return (UploadState (total_chunks st) (indexed_count st) (indexed_files st)
                 (shown ++ [ErrorBox (file_name file) e; Progress (i + 1) n_files])),
       w')
  | (Diverge, w') => (Diverge, w')
  end.

(** A [for] loop that threads the variables [a] through its body. *)
Fixpoint for_each {sv A B} (body : A -> B -> M sv A) (l : list B) (a : A) : M sv A :=
  match l with
  | [] => mret a
  | x :: l' => a' ← body a x; for_each body l' a'
  end.

Definition upload_and_index {sv} (uploaded_files : list uploaded_file)
    (session_files : list str) : M sv upload_state :=
  if truthy uploaded_files then
    st ← for_each (upload_step (length uploaded_files)) (enumerate uploaded_files)
          (UploadState 0 0 session_files []);
    mret (UploadState (total_chunks st) (indexed_count st) (indexed_files st)
            (ui st ++ [StatusText []; SuccessBox (indexed_count st) (total_chunks st)]))
  else mret (UploadState 0 0 session_files []).

(** ** Further notions and collaborators for the properties *)

(** The error boxes among the events of the page. *)
Definition error_boxes (evs : list ui_event) : list (str * exn) :=
  omap (λ ev, match ev with ErrorBox name e => Some (name, e) | _ => None end) evs.

(** The progress fractions among the events of the page. *)
Definition progress_shown (evs : list ui_event) : list (nat * nat) :=
  omap (λ ev, match ev with Progress a b => Some (a, b) | _ => None end) evs.

(** The chunks [chunk_text(text)] returns with its default parameters
    ([chunk_text_default] below). *)
Definition default_chunks (text : str) : list str :=
  windows text default_chunk_size default_overlap
    (iterations (py_len text) default_chunk_size default_overlap 0) 0.

(** The lists [index_pdf] builds from the texts of the pages of a file. *)
Definition pdf_batch (sv : services) (filename : str) (page_texts : list str) : batch :=
  build_batch filename (path_stem sv filename) (default_chunks (join_pages page_texts)).

(** The ids a collection holds. *)
Definition stored_ids {scalar} (w : world scalar) : gset str := dom (collection w).

(** Collaborators as [sample_services], with a PDF library that rejects the
    empty file and an embedding service that is down. *)
Definition strict_reader_services : services := {|
  scalar := Z;
  pdf_reader := fun content => if truthy content then Some [content] else None;
  path_stem := path_stem sample_services;
  embedding_service := embedding_service sample_services;
  nearest := nearest sample_services |}.

Definition service_down : services := {|
  scalar := Z;
  pdf_reader := pdf_reader sample_services;
  path_stem := path_stem sample_services;
  embedding_service := fun _ _ => None;
  nearest := nearest sample_services |}.

(** The world after [invoice_pdf] is indexed from the empty world. *)
Definition invoice_world : world Z :=
  (index_pdf (sv:=sample_services) invoice_pdf invoice_name empty_world).2.

(** ** Notions for the properties of the runs *)

(** The chunk has a character that is not white space. *)
Definition has_visible (chunk : str) : bool :=
  existsb (λ c, negb (isspace c)) chunk.

(** Collaborators as [sample_services], with an embedding service that
    answers one vector too few. *)
Definition short_answer_services : services := {|
  scalar := Z;
  pdf_reader := pdf_reader sample_services;
  path_stem := path_stem sample_services;
  embedding_service := fun _ input => Some (map (fun s => [py_len s]) (drop 1 input));
  nearest := nearest sample_services |}.

(** The extracted text of the PDF whose one page is [sparse_page]. *)
Definition sparse_text : str := join_pages [sparse_page].

(** The runs of [index_pdf] on the uploaded files, one after the other, each
    in the state the run before left: every file with the outcome of its run,
    and the state after the last. *)
Fixpoint index_all {sv} (files : list uploaded_file) (w : world (scalar sv))
    : list (uploaded_file * outcome Z) * world (scalar sv) :=
  match files with
  | [] => ([], w)
  | file :: files' =>
      let r := index_pdf (sv:=sv) (file_content file) (file_name file) w in
      let rest := index_all files' r.2 in
      ((file, r.1) :: rest.1, rest.2)
  end.

(** The names of the files whose run returned. *)
Definition returned_names (runs : list (uploaded_file * outcome Z)) : list str :=
  omap (λ fo, match fo.2 with Return _ => Some (file_name fo.1) | _ => None end) runs.

(** The names of the files whose run raised, each with its exception. *)
Definition raised_names (runs : list (uploaded_file * outcome Z)) : list (str * exn) :=
  omap (λ fo, match fo.2 with Raise e => Some (file_name fo.1, e) | _ => None end) runs.

(** The sum of the values the runs returned. *)
Definition returned_total (runs : list (uploaded_file * outcome Z)) : Z :=
  foldr (λ fo acc, match fo.2 with Return n => n + acc | _ => acc end) 0 runs.

(** ** Properties of slices *)

Lemma adjust_index_range len i : 0 <= len -> 0 <= adjust_index len i <= len.
Proof. unfold adjust_index. destruct (Z.ltb_spec i 0); lia. Qed.

Lemma slice_inside (text : str) (start stop : Z) :
  0 <= start -> start <= stop ->
  slice text start stop
  = take (Z.to_nat (Z.min stop (py_len text) - start)) (drop (Z.to_nat start) text).
Proof.
  intros Hs Hst. unfold slice, adjust_index, py_len.
  destruct (Z.ltb_spec start 0); [lia|].
  destruct (Z.ltb_spec stop 0); [lia|].
  destruct (Z.le_gt_cases start (Z.of_nat (length text))) as [Hle|Hgt].
  - rewrite (Z.min_l start) by lia. reflexivity.
  - rewrite (Z.min_r start) by lia.
    rewrite !drop_ge by lia. by rewrite !take_nil.
Qed.

Lemma slice_substring (text : str) (start stop : Z) :
  ∃ pre post, text = pre ++ slice text start stop ++ post.
Proof.
  unfold slice.
  set (lo := Z.to_nat (adjust_index _ start)). set (n := Z.to_nat (_ - _)).
  exists (take lo text), (drop n (drop lo text)).
  by rewrite (take_drop n), (take_drop lo).
Qed.

Lemma slice_length_pos (text : str) (start stop : Z) :
  0 <= start < py_len text -> start < stop -> (0 < length (slice text start stop))%nat.
Proof.
  intros Hs Hst. rewrite slice_inside by lia.
  unfold py_len in *. rewrite length_take, length_drop. lia.
Qed.

(** ** The loop of the chunker *)

Lemma ceil_div_step (a b : Z) : 0 < b -> 0 < a -> ceil_div a b = 1 + ceil_div (a - b) b.
Proof.
  intros Hb Ha. unfold ceil_div.
  replace (a + b - 1) with ((a - b + b - 1) + 1 * b) by lia.
  rewrite Z.div_add by lia. lia.
Qed.

Lemma ceil_div_nonpos (a b : Z) : 0 < b -> a <= 0 -> ceil_div a b <= 0.
Proof.
  intros Hb Ha. unfold ceil_div.
  assert ((a + b - 1) / b < 1); [|lia].
  apply Z.div_lt_upper_bound; lia.
Qed.

Lemma ceil_div_nonneg (a b : Z) : 0 < b -> 0 <= a -> 0 <= ceil_div a b.
Proof. intros Hb Ha. unfold ceil_div. apply Z.div_pos; lia. Qed.

Lemma ceil_div_le (a b : Z) : 0 < b -> 0 <= a -> ceil_div a b <= a.
Proof.
  intros Hb Ha. unfold ceil_div.
  destruct (Z.eq_dec a 0) as [->|Hne].
  - rewrite Z.div_small; lia.
  - assert ((a + b - 1) / b < a + 1); [|lia].
    apply Z.div_lt_upper_bound; nia.
Qed.

Lemma iterations_step (len chunk_size overlap start : Z) :
  overlap < chunk_size -> start < len ->
  iterations len chunk_size overlap start
  = S (iterations len chunk_size overlap (start + chunk_size - overlap)).
Proof.
  intros Hs Hlt. unfold iterations.
  rewrite ceil_div_step by lia.
  replace (len - start - (chunk_size - overlap))
    with (len - (start + chunk_size - overlap)) by lia.
  set (r := len - (start + chunk_size - overlap)).
  destruct (Z.le_gt_cases 0 r).
  - pose proof (ceil_div_nonneg r (chunk_size - overlap)). lia.
  - pose proof (ceil_div_nonpos r (chunk_size - overlap)).
    assert (ceil_div r (chunk_size - overlap) = 0) as ->; [|reflexivity].
    unfold ceil_div in *.
    assert (0 <= (r + (chunk_size - overlap) - 1) / (chunk_size - overlap)); [|lia].
    apply Z.div_pos; lia.
Qed.

Lemma iterations_done (len chunk_size overlap start : Z) :
  overlap < chunk_size -> len <= start ->
  iterations len chunk_size overlap start = O.
Proof.
  intros Hs Hge. unfold iterations.
  pose proof (ceil_div_nonpos (len - start) (chunk_size - overlap)). lia.
Qed.

Lemma chunk_loop_windows (text : str) (chunk_size overlap : Z) :
  overlap < chunk_size ->
  ∀ fuel start chunks,
    (iterations (py_len text) chunk_size overlap start < fuel)%nat ->
    chunk_loop fuel text chunk_size overlap start chunks
    = Some (chunks ++ windows text chunk_size overlap
                        (iterations (py_len text) chunk_size overlap start) start).
Proof.
  intros Hs fuel. induction fuel as [|fuel IH]; intros start chunks Hfuel; [lia|].
  simpl. destruct (Z.ltb_spec start (py_len text)) as [Hlt|Hge].
  - rewrite iterations_step in * by lia. simpl.
    rewrite IH by lia. by rewrite <- app_assoc.
  - rewrite iterations_done by lia. simpl. by rewrite app_nil_r.
Qed.

Lemma chunk_loop_more_fuel (text : str) (chunk_size overlap : Z) :
  ∀ fuel fuel' start chunks result,
    chunk_loop fuel text chunk_size overlap start chunks = Some result ->
    (fuel <= fuel')%nat ->
    chunk_loop fuel' text chunk_size overlap start chunks = Some result.
Proof.
  induction fuel as [|fuel IH]; intros fuel' start chunks result Hrun Hle; [done|].
  destruct fuel' as [|fuel']; [lia|].
  simpl in *. destruct (start <? py_len text); [|done].
  apply IH; [done|lia].
Qed.

(** Without a positive stride the loop never leaves a non-empty text. *)
Lemma chunk_loop_diverges (text : str) (chunk_size overlap : Z) :
  chunk_size <= overlap -> text ≠ [] ->
  ∀ fuel start chunks,
    start <= 0 -> chunk_loop fuel text chunk_size overlap start chunks = None.
Proof.
  intros Hs Hne. induction fuel as [|fuel IH]; intros start chunks Hstart; [done|].
  simpl. assert (0 < py_len text) by (unfold py_len; destruct text; [done|simpl; lia]).
  destruct (Z.ltb_spec start (py_len text)); [|lia].
  apply IH. lia.
Qed.

Lemma chunk_text_windows (text : str) (chunk_size overlap : Z) :
  overlap < chunk_size ->
  chunk_text text chunk_size overlap
  = Some (windows text chunk_size overlap
            (iterations (py_len text) chunk_size overlap 0) 0).
Proof.
  intros Hs. unfold chunk_text. rewrite chunk_loop_windows; [done..|].
  unfold iterations, py_len. rewrite Z.sub_0_r.
  pose proof (ceil_div_le (Z.of_nat (length text)) (chunk_size - overlap)). lia.
Qed.

(** The fuel of [chunk_text] loses no run of the loop. *)
Lemma chunk_text_fuel_complete (text : str) (chunk_size overlap : Z) fuel result :
  chunk_loop fuel text chunk_size overlap 0 [] = Some result ->
  chunk_text text chunk_size overlap = Some result.
Proof.
  intros Hrun. destruct (Z.lt_ge_cases overlap chunk_size) as [Hs|Hs].
  - pose proof (chunk_text_windows text chunk_size overlap Hs) as Hw.
    rewrite Hw. unfold chunk_text in Hw.
    apply (chunk_loop_more_fuel _ _ _ _ (Nat.max fuel (S (length text)))) in Hrun; [|lia].
    apply (chunk_loop_more_fuel _ _ _ _ (Nat.max fuel (S (length text)))) in Hw; [|lia].
    congruence.
  - destruct text as [|c text].
    + destruct fuel; [done|]. simpl in Hrun. by simplify_eq.
    + by rewrite chunk_loop_diverges in Hrun.
Qed.

Lemma length_windows (text : str) (chunk_size overlap : Z) n start :
  length (windows text chunk_size overlap n start) = n.
Proof. revert start. induction n as [|n IH]; intros start; simpl; [done|]. by rewrite IH. Qed.

(** Every window of a run starts inside the text. *)
Lemma windows_Forall (P : str -> Prop) (text : str) (chunk_size overlap : Z) :
  overlap < chunk_size ->
  (∀ st, 0 <= st < py_len text -> P (slice text st (st + chunk_size))) ->
  ∀ n start,
    0 <= start -> n = iterations (py_len text) chunk_size overlap start ->
    Forall P (windows text chunk_size overlap n start).
Proof.
  intros Hs HP. induction n as [|n IH]; intros start Hstart Hn; simpl; [constructor|].
  destruct (Z.lt_ge_cases start (py_len text)) as [Hlt|Hge].
  - rewrite iterations_step in Hn by lia. constructor; [apply HP; lia|].
    apply IH; [lia|congruence].
  - rewrite iterations_done in Hn by lia. done.
Qed.


(** ** Termination *)

(** C7: for every text and all parameters with [overlap < chunk_size],
    [chunk_text] terminates (the loop returns with the fuel of [chunk_text],
    and with any larger fuel it returns the same list) and its result is a
    finite sequence, at most [len(text)] long, of substrings of the text. *)
Theorem chunk_text_terminates (text : str) (chunk_size overlap : Z) :
  overlap < chunk_size ->
  ∃ chunks,
    chunk_text text chunk_size overlap = Some chunks
    ∧ (∀ fuel, (length text < fuel)%nat ->
         chunk_loop fuel text chunk_size overlap 0 [] = Some chunks)
    ∧ (length chunks <= length text)%nat
    ∧ Forall (λ c, ∃ pre post, text = pre ++ c ++ post) chunks.
Proof.
  intros Hs. eexists. split; [by apply chunk_text_windows|]. split; [|split].
  - intros fuel Hfuel.
    eapply chunk_loop_more_fuel; [apply chunk_text_windows; done|lia].
  - rewrite length_windows. unfold iterations, py_len. rewrite Z.sub_0_r.
    pose proof (ceil_div_le (Z.of_nat (length text)) (chunk_size - overlap)). lia.
  - eapply windows_Forall; [done| |done..].
    intros st _. apply slice_substring.
Qed.

Lemma chunk_text_terminates_witness :
  120 < 800
  ∧ ∃ chunks,
      chunk_text (letters 2000) 800 120 = Some chunks
      ∧ (∀ fuel, (length (letters 2000) < fuel)%nat ->
           chunk_loop fuel (letters 2000) 800 120 0 [] = Some chunks)
      ∧ (length chunks <= length (letters 2000))%nat
      ∧ Forall (λ c, ∃ pre post, letters 2000 = pre ++ c ++ post) chunks.
Proof. split; [lia|]. apply (chunk_text_terminates (letters 2000) 800 120). lia. Defined.

(** ** Number of chunks *)




(** ** Short texts *)

Lemma chunk_text_empty (chunk_size overlap : Z) :
  chunk_text [] chunk_size overlap = Some [].
Proof. reflexivity. Qed.

Lemma slice_whole (text : str) (stop : Z) :
  py_len text <= stop -> slice text 0 stop = text.
Proof.
  intros Hstop. rewrite slice_inside by (unfold py_len in *; lia).
  rewrite Z.min_r by lia. simpl. unfold py_len. rewrite drop_0, take_ge; [done|lia].
Qed.

(** C4, as the code has it: for every non-empty text whose length is
    strictly less than [chunk_size] and at most [chunk_size - overlap],
    [chunk_text] yields exactly one chunk, and that chunk equals the whole
    input text. *)
Theorem chunk_text_short (text : str) (chunk_size overlap : Z) :
  text ≠ [] ->
  py_len text < chunk_size ->
  py_len text <= chunk_size - overlap ->
  chunk_text text chunk_size overlap = Some [text].
Proof.
  intros Hne Hlt Hstride.
  assert (0 < py_len text) by (unfold py_len; destruct text; [done|simpl; lia]).
  rewrite chunk_text_windows by lia.
  rewrite iterations_step by lia. rewrite iterations_done by lia.
  simpl. by rewrite slice_whole by lia.
Qed.

Lemma chunk_text_short_witness :
  letters 100 ≠ []
  ∧ py_len (letters 100) < 800
  ∧ py_len (letters 100) <= 800 - 120
  ∧ chunk_text (letters 100) 800 120 = Some [letters 100].
Proof.
  assert (letters 100 ≠ []) as Hne by done.
  assert (py_len (letters 100) < 800) as Hlt by (by vm_compute).
  assert (py_len (letters 100) <= 800 - 120) as Hstride
    by (vm_compute; discriminate).
  split; [exact Hne|]. split; [exact Hlt|]. split; [exact Hstride|].
  exact (chunk_text_short (letters 100) 800 120 Hne Hlt Hstride).
Defined.

(** A text shorter than [chunk_size] but longer than the stride: the first
    chunk is the whole text, and a second window starts inside it. *)
Lemma chunk_text_short_overlap (text : str) (chunk_size overlap : Z) :
  py_len text < chunk_size -> overlap < chunk_size ->
  chunk_size - overlap < py_len text ->
  ∃ rest, chunk_text text chunk_size overlap = Some (text :: rest) ∧ rest ≠ [].
Proof.
  intros Hlt Hs Hlong. rewrite chunk_text_windows by lia.
  rewrite iterations_step by lia. rewrite iterations_step by lia.
  simpl. rewrite slice_whole by lia. eexists. split; [done|done].
Qed.

(** C4, as the specification writes it, fails on the empty text, which
    yields no chunk, and on a 700-character text with the default
    parameters, which yields two. *)
Lemma chunk_text_short_counterexample :
  py_len [] < 800
  ∧ chunk_text [] 800 120 = Some []
  ∧ py_len (letters 700) < 800
  ∧ chunk_text (letters 700) 800 120
    = Some [letters 700; drop 680 (letters 700)].
Proof. repeat split; by vm_compute. Qed.

(** ** Empty windows *)

(** A window of at least one character that starts inside the text is not
    empty, so a run with [1 <= chunk_size] yields no empty string. *)
Lemma chunk_text_windows_nonempty (text : str) (chunk_size overlap : Z) :
  0 < chunk_size -> overlap < chunk_size ->
  Forall (λ c, c ≠ [])
    (windows text chunk_size overlap (iterations (py_len text) chunk_size overlap 0) 0).
Proof.
  intros Hc Hs. eapply windows_Forall; [done| |done..].
  intros st Hst Hnil.
  pose proof (slice_length_pos text st (st + chunk_size)) as Hlen.
  rewrite Hnil in Hlen. simpl in Hlen. lia.
Qed.

(** With [1 <= chunk_size], as the pipeline runs the chunker, no window is
    the empty string, whether or not the length of the text is a multiple of
    the stride. *)
Lemma chunk_text_no_empty_window (text : str) (chunk_size overlap : Z) :
  0 < chunk_size -> overlap < chunk_size ->
  ∃ chunks,
    chunk_text text chunk_size overlap = Some chunks
    ∧ Forall (λ c, c ≠ []) chunks.
Proof.
  intros Hc Hs. eexists. split; [by apply chunk_text_windows|].
  by apply chunk_text_windows_nonempty.
Qed.

Lemma default_parameters_no_empty_window :
  ¬ empty_window_at_multiple default_chunk_size default_overlap.
Proof.
  intros (text & chunks & _ & Hrun & Hin).
  unfold default_chunk_size, default_overlap in *.
  rewrite chunk_text_windows in Hrun by lia. simplify_eq.
  pose proof (chunk_text_windows_nonempty text 800 120) as Hall.
  rewrite Forall_forall in Hall. by eapply Hall; [lia..| |].
Qed.

(** A text of two strides exactly: two windows, the last one full of text. *)
Example two_strides :
  py_len (letters 1360) mod (800 - 120) = 0
  ∧ chunk_text (letters 1360) 800 120 = Some [letters 800; letters 680].
Proof. split; by vm_compute. Qed.

(** With a chunk size of zero every window is empty. *)
Example zero_chunk_size :
  chunk_text (lit "ab") 0 (-1) = Some [[]; []].
Proof. reflexivity. Qed.

(** ** Reconstruction from the stride prefixes *)

Lemma stride_prefixes_windows (text : str) (chunk_size overlap : Z) :
  0 <= overlap -> overlap < chunk_size ->
  ∀ n start,
    0 <= start -> n = iterations (py_len text) chunk_size overlap start ->
    stride_prefixes chunk_size overlap (windows text chunk_size overlap n start)
    = drop (Z.to_nat start) text.
Proof.
  intros Ho Hs. unfold stride_prefixes.
  induction n as [|n IH]; intros start Hstart Hn; simpl.
  - destruct (Z.lt_ge_cases start (py_len text)) as [Hlt|Hge].
    + rewrite iterations_step in Hn by lia. done.
    + rewrite drop_ge; [done|]. unfold py_len in Hge. lia.
  - destruct (Z.lt_ge_cases start (py_len text)) as [Hlt|Hge].
    + rewrite iterations_step in Hn by lia.
      rewrite IH by (lia || congruence).
      rewrite slice_inside by lia. rewrite take_take.
      unfold py_len in *.
      destruct (Z.le_gt_cases (start + (chunk_size - overlap)) (Z.of_nat (length text))).
      * replace (Z.to_nat (start + chunk_size - overlap))
          with (Z.to_nat start + Z.to_nat (chunk_size - overlap))%nat by lia.
        rewrite <- drop_drop.
        replace (Z.to_nat (chunk_size - overlap)
                 `min` Z.to_nat (Z.min (start + chunk_size) (Z.of_nat (length text)) - start))%nat
          with (Z.to_nat (chunk_size - overlap)) by lia.
        apply take_drop.
      * rewrite (drop_ge text (Z.to_nat (start + chunk_size - overlap))) by lia.
        rewrite app_nil_r. apply take_ge. rewrite length_drop. lia.
    + rewrite iterations_done in Hn by lia. done.
Qed.

(** C8, as the code has it: for every text and parameters with
    [0 <= overlap < chunk_size], concatenating the
    [(chunk_size - overlap)]-length prefixes of the consecutive chunks
    produced by [chunk_text] reconstructs the original text exactly. *)
Theorem chunk_text_reconstructs (text : str) (chunk_size overlap : Z) :
  0 <= overlap -> overlap < chunk_size ->
  ∃ chunks,
    chunk_text text chunk_size overlap = Some chunks
    ∧ stride_prefixes chunk_size overlap chunks = text.
Proof.
  intros Ho Hs. eexists. split; [by apply chunk_text_windows|].
  by rewrite stride_prefixes_windows.
Qed.

Lemma chunk_text_reconstructs_witness :
  0 <= 120 ∧ 120 < 800
  ∧ ∃ chunks,
      chunk_text (letters 2000) 800 120 = Some chunks
      ∧ stride_prefixes 800 120 chunks = letters 2000.
Proof.
  split; [lia|]. split; [lia|].
  apply (chunk_text_reconstructs (letters 2000) 800 120); lia.
Defined.

(** C8, as the specification writes it, fails for a negative overlap,
    which satisfies [overlap < chunk_size]: the windows leave gaps. *)
Lemma chunk_text_reconstructs_counterexample :
  -1 < 2
  ∧ chunk_text (lit "abcdef") 2 (-1) = Some [lit "ab"; lit "de"]
  ∧ stride_prefixes 2 (-1) [lit "ab"; lit "de"] = lit "abde"
  ∧ lit "abde" ≠ lit "abcdef".
Proof. repeat split; done. Qed.

(** ** White space *)

Lemma lstrip_nil_iff (s : str) : lstrip s = [] ↔ Forall (λ c, isspace c = true) s.
Proof.
  induction s as [|c s IH]; simpl; [by split|].
  destruct (isspace c) eqn:Hc.
  - rewrite IH. split; [by constructor|]. by inversion 1.
  - split; [done|]. inversion 1. congruence.
Qed.

Lemma lstrip_head (s : str) (c : ascii) (t : str) :
  lstrip s = c :: t -> isspace c = false.
Proof.
  induction s as [|a s IH]; simpl; [done|].
  destruct (isspace a) eqn:Ha; [exact IH|]. intros Heq. by simplify_eq.
Qed.

(** [chunk.strip()] is empty exactly when every character of the chunk is
    white space. *)
Lemma strip_nil_iff (s : str) : strip s = [] ↔ Forall (λ c, isspace c = true) s.
Proof.
  unfold strip, rstrip. split.
  - intros Hnil. apply (f_equal reverse) in Hnil.
    rewrite reverse_involutive, reverse_nil in Hnil.
    apply lstrip_nil_iff in Hnil. rewrite Forall_reverse in Hnil.
    apply lstrip_nil_iff.
    destruct (lstrip s) as [|c t] eqn:Hs; [done|].
    apply lstrip_head in Hs. apply Forall_cons in Hnil as [Hc _]. congruence.
  - intros Hall. apply lstrip_nil_iff in Hall. by rewrite Hall.
Qed.

(** A chunk is kept exactly when it has a character that is not white
    space. *)
Lemma nonblank_iff (chunk : str) :
  nonblank chunk = true ↔ ∃ c, c ∈ chunk ∧ isspace c = false.
Proof.
  unfold nonblank. split.
  - intros Hnb. destruct (decide (Forall (λ c, isspace c = true) chunk)) as [Hall|Hex].
    + apply strip_nil_iff in Hall. rewrite Hall in Hnb. discriminate Hnb.
    + apply not_Forall_Exists in Hex; [|apply _].
      apply Exists_exists in Hex as (c & Hin & Hc).
      exists c. split; [done|]. by apply not_true_is_false.
  - intros (c & Hin & Hc). destruct (strip chunk) eqn:Hs; [|done].
    apply strip_nil_iff in Hs. rewrite Forall_forall in Hs.
    apply Hs in Hin. congruence.
Qed.

(** ** The loop of the indexing pipeline *)

Lemma fold_index_step (filename stem : str) (l : list (nat * str)) (b : batch) :
  fold_left (index_step filename stem) l b
  = let kept := List.filter (λ ic, nonblank ic.2) l in
    Batch (all_chunks b ++ map snd kept)
          (metadatas b ++ map (λ ic, Metadata filename ic.1) kept)
          (ids b ++ map (λ ic, chunk_id stem ic.1) kept).
Proof.
  revert b. induction l as [|[i c] l IH]; intros b; simpl.
  - rewrite !app_nil_r. by destruct b.
  - rewrite IH. unfold nonblank. destruct (truthy (strip c)); simpl; [|done].
    by rewrite <- !app_assoc.
Qed.

Lemma build_batch_kept (filename stem : str) (chunks : list str) :
  build_batch filename stem chunks
  = Batch (map snd (kept_chunks chunks))
          (map (λ ic, Metadata filename ic.1) (kept_chunks chunks))
          (map (λ ic, chunk_id stem ic.1) (kept_chunks chunks)).
Proof. unfold build_batch. by rewrite fold_index_step. Qed.

Lemma enumerate_from_lookup {A} (l : list A) (k i : nat) (x : A) :
  (i, x) ∈ enumerate_from k l -> (k <= i)%nat ∧ l !! (i - k)%nat = Some x.
Proof.
  revert k. induction l as [|y l IH]; intros k Hin; simpl in *.
  - by apply elem_of_nil in Hin.
  - apply elem_of_cons in Hin as [Heq|Hin].
    + simplify_eq. split; [lia|]. by rewrite Nat.sub_diag.
    + apply IH in Hin as [Hle Hl]. split; [lia|].
      replace (i - k)%nat with (S (i - S k)) by lia. done.
Qed.

Lemma enumerate_from_elem_of {A} (l : list A) (k i : nat) (x : A) :
  l !! i = Some x -> ((k + i)%nat, x) ∈ enumerate_from k l.
Proof.
  revert k i. induction l as [|y l IH]; intros k i Hl; [done|].
  destruct i as [|i]; simpl in *.
  - simplify_eq. rewrite Nat.add_0_r. apply list_elem_of_here.
  - apply list_elem_of_further. replace (k + S i)%nat with (S k + i)%nat by lia.
    by apply IH.
Qed.

Lemma enumerate_from_indices {A} (l : list A) (k : nat) :
  map fst (enumerate_from k l) = seq k (length l).
Proof. revert k. induction l as [|x l IH]; intros k; simpl; [done|]. by rewrite IH. Qed.

Lemma kept_chunks_lookup (chunks : list str) (i : nat) (c : str) :
  (i, c) ∈ kept_chunks chunks -> chunks !! i = Some c ∧ nonblank c = true.
Proof.
  unfold kept_chunks. rewrite list_elem_of_In, filter_In, <- list_elem_of_In.
  intros [Hin Hnb]. apply enumerate_from_lookup in Hin as [_ Hl].
  by rewrite Nat.sub_0_r in Hl.
Qed.

(** The kept chunks are the non-blank chunks, each with its index in the
    sequence [chunk_text] returned. *)
Lemma elem_of_kept_chunks (chunks : list str) (i : nat) (c : str) :
  (i, c) ∈ kept_chunks chunks ↔ chunks !! i = Some c ∧ nonblank c = true.
Proof.
  split; [apply kept_chunks_lookup|]. intros [Hl Hnb].
  unfold kept_chunks. rewrite list_elem_of_In, filter_In, <- list_elem_of_In.
  split; [|done]. by apply (enumerate_from_elem_of chunks 0 i c).
Qed.


Lemma kept_chunks_none (chunks : list str) :
  Forall (λ c, nonblank c = false) chunks -> kept_chunks chunks = [].
Proof.
  unfold kept_chunks, enumerate. generalize 0%nat.
  induction chunks as [|c chunks IH]; intros k Hall; simpl; [done|].
  inversion Hall; subst. simpl. rewrite H1. by rewrite IH.
Qed.

Lemma kept_chunks_documents (chunks : list str) :
  map snd (kept_chunks chunks) = List.filter nonblank chunks.
Proof.
  unfold kept_chunks, enumerate. generalize 0%nat.
  induction chunks as [|c chunks IH]; intros k; simpl; [done|].
  destruct (nonblank c); simpl; by rewrite IH.
Qed.

(** ** Empty windows and the filter *)



(** ** Chunk ids *)

Lemma to_uint_nonnil (n : nat) : Nat.to_uint n ≠ Decimal.Nil.
Proof.
  intros Hnil. pose proof (DecimalNat.Unsigned.of_to n) as Hn.
  rewrite Hnil in Hn. simpl in Hn. subst n. discriminate Hnil.
Qed.

Lemma str_of_nat_inj (i j : nat) : str_of_nat i = str_of_nat j -> i = j.
Proof.
  unfold str_of_nat, lit. intros Heq.
  apply (f_equal string_of_list_ascii) in Heq.
  rewrite !string_of_list_ascii_of_string in Heq.
  apply (f_equal NilZero.uint_of_string) in Heq.
  rewrite !NilZero.usu in Heq by apply to_uint_nonnil.
  apply DecimalNat.Unsigned.to_uint_inj. congruence.
Qed.

Lemma chunk_id_inj (stem : str) (i j : nat) :
  chunk_id stem i = chunk_id stem j -> i = j.
Proof.
  unfold chunk_id. intros Heq. apply app_inv_head in Heq.
  apply app_inv_head in Heq. by apply str_of_nat_inj.
Qed.

Lemma NoDup_filter_fst {A} (f : nat * A -> bool) (l : list (nat * A)) :
  NoDup (map fst l) -> NoDup (map fst (List.filter f l)).
Proof.
  induction l as [|x l IH]; simpl; [done|].
  rewrite NoDup_cons. intros [Hx Hl]. destruct (f x); simpl; [|by apply IH].
  apply NoDup_cons. split; [|by apply IH].
  intros Hin. apply Hx.
  apply list_elem_of_In in Hin. apply list_elem_of_In.
  apply in_map_iff in Hin as (y & Hy & Hin). apply in_map_iff.
  exists y. split; [done|]. by apply filter_In in Hin as [Hin _].
Qed.

Lemma kept_chunks_ids_NoDup (stem : str) (chunks : list str) :
  NoDup (map (λ ic, chunk_id stem ic.1) (kept_chunks chunks)).
Proof.
  assert (NoDup (map fst (kept_chunks chunks))) as Hnd.
  { apply NoDup_filter_fst. unfold enumerate.
    rewrite enumerate_from_indices. apply NoDup_seq. }
  induction (kept_chunks chunks) as [|[i c] l IH]; simpl in *; [constructor|].
  apply NoDup_cons in Hnd as [Hi Hl]. apply NoDup_cons. split; [|by apply IH].
  intros Hin. apply Hi.
  apply list_elem_of_In in Hin. apply list_elem_of_In.
  apply in_map_iff in Hin as ([j d] & Hj & Hin). apply in_map_iff.
  exists (j, d). split; [|done]. simpl in *. symmetry. by eapply chunk_id_inj.
Qed.

(** ** Entries of the store *)

Lemma insert_entries_other {scalar} (ids_ documents : list str)
    (embeddings : list (list scalar)) (metas : list metadata)
    (m : gmap str (entry scalar)) (id : str) :
  id ∉ ids_ ->
  insert_entries ids_ documents embeddings metas m !! id = m !! id.
Proof.
  revert documents embeddings metas m.
  induction ids_ as [|i ids_ IH]; intros documents embeddings metas m Hnot; [done|].
  apply not_elem_of_cons in Hnot as [Hne Hnot].
  destruct documents, embeddings, metas; simpl; try done.
  rewrite IH by done. by rewrite lookup_insert_ne.
Qed.

Lemma insert_entries_lookup {scalar} (ids_ documents : list str)
    (embeddings : list (list scalar)) (metas : list metadata)
    (m : gmap str (entry scalar)) (j : nat) id d e mt :
  NoDup ids_ ->
  ids_ !! j = Some id -> documents !! j = Some d ->
  embeddings !! j = Some e -> metas !! j = Some mt ->
  insert_entries ids_ documents embeddings metas m !! id = Some (Entry e d mt).
Proof.
  revert documents embeddings metas m j.
  induction ids_ as [|i ids_ IH]; intros documents embeddings metas m j Hnd Hid Hd He Hmt;
    [done|].
  apply NoDup_cons in Hnd as [Hi Hnd].
  destruct documents as [|d0 documents], embeddings as [|e0 embeddings],
    metas as [|mt0 metas]; try (by destruct j).
  destruct j as [|j]; simpl in *.
  - simplify_eq. rewrite insert_entries_other by done. by rewrite lookup_insert_eq.
  - by eapply IH.
Qed.

(** ** Runs of the indexing pipeline *)

Lemma new_events_app {scalar} (w w' : world scalar) (evs : list (event scalar)) :
  trace w' = trace w ++ evs -> new_events w w' = evs.
Proof. unfold new_events. intros ->. by rewrite drop_app_length. Qed.

(** The ways a run goes on after the embedding request. *)
Ltac service_cases :=
  destruct (embedding_service _ _ _); [|done];
  destruct (same_lengths _ _ _ _); [|done];
  destruct (check_dimension _ _); done.

Section Pipeline.
Context (sv : services).

Lemma index_chunks_nothing_kept (filename : str) (chunks : list str)
    (w : world (scalar sv)) :
  kept_chunks chunks = [] ->
  index_chunks (sv:=sv) filename chunks w = (Return 0, w).
Proof.
  intros Hkept. unfold index_chunks.
  destruct chunks as [|c chunks]; [done|]. simpl negb. cbv iota.
  rewrite build_batch_kept, Hkept. done.
Qed.

Lemma index_chunks_kept (filename : str) (chunks : list str)
    (w : world (scalar sv)) :
  kept_chunks chunks ≠ [] ->
  let b := build_batch filename (path_stem sv filename) chunks in
  index_chunks (sv:=sv) filename chunks w
  = match embedding_service sv (trace w) (all_chunks b) with
    | None =>
        (Raise EmbeddingServiceError,
         with_trace (trace w ++ [EmbedCall (all_chunks b)]) w)
    | Some embeddings =>
        let t := (trace w ++ [EmbedCall (all_chunks b)])
                 ++ [AddCall (all_chunks b) (metadatas b) embeddings (ids b)] in
        if same_lengths (all_chunks b) (metadatas b) embeddings (ids b) then
          match check_dimension (dimension w) embeddings with
          | None => (Raise DimensionMismatchError, with_trace t w)
          | Some dim =>
              (Return (Z.of_nat (length (all_chunks b))),
               World (insert_entries (ids b) (all_chunks b) embeddings
                        (metadatas b) (collection w))
                     dim t (tmp_files w) (next_tmp w))
          end
        else (Raise LengthMismatchError, with_trace t w)
    end.
Proof.
  intros Hkept b. unfold index_chunks.
  destruct chunks as [|c chunks]; [done|]. simpl negb. cbv iota.
  fold b. assert (all_chunks b ≠ []) as Hb.
  { unfold b. rewrite build_batch_kept. simpl.
    destruct (kept_chunks (c :: chunks)); done. }
  destruct (all_chunks b) as [|d ds] eqn:Hd; [done|]. simpl negb. cbv iota.
  unfold mbind, M_bind, embeddings_create, collection_add, mbind, M_bind, log, mret, M_ret.
  simpl. destruct (embedding_service sv (trace w) (d :: ds)) as [embeddings|]; [|done].
  destruct (same_lengths _ _ _ _); [|done].
  destruct (check_dimension _ _); done.
Qed.

(** The temporary files are no concern of [index_chunks]. *)
Lemma index_chunks_frame (filename : str) (chunks : list str)
    (w : world (scalar sv)) (tmp : gmap nat bytes) (next : nat) :
  index_chunks (sv:=sv) filename chunks
    (World (collection w) (dimension w) (trace w) tmp next)
  = let r := index_chunks (sv:=sv) filename chunks w in
    (r.1, World (collection r.2) (dimension r.2) (trace r.2) tmp next).
Proof.
  destruct (decide (kept_chunks chunks = [])) as [Hkept|Hkept].
  - by rewrite !index_chunks_nothing_kept.
  - rewrite !index_chunks_kept by done. simpl.
    service_cases.
Qed.

Lemma index_chunks_tmp (filename : str) (chunks : list str)
    (w : world (scalar sv)) :
  let r := index_chunks (sv:=sv) filename chunks w in
  tmp_files r.2 = tmp_files w ∧ next_tmp r.2 = next_tmp w.
Proof.
  pose proof (index_chunks_frame filename chunks w (tmp_files w) (next_tmp w)) as Hframe.
  destruct w as [c d t tmp n]. simpl in *.
  destruct (index_chunks filename chunks (World c d t tmp n)) as [out w'].
  simpl in *. inversion Hframe as [Hw']. rewrite Hw' at 1 2. done.
Qed.

Lemma index_chunks_returns_or_raises (filename : str) (chunks : list str)
    (w : world (scalar sv)) :
  (index_chunks (sv:=sv) filename chunks w).1 ≠ Diverge.
Proof.
  destruct (decide (kept_chunks chunks = [])) as [Hkept|Hkept].
  - by rewrite index_chunks_nothing_kept.
  - rewrite index_chunks_kept by done. simpl.
    service_cases.
Qed.

(** A run of [index_pdf]: the upload goes through a temporary file, which
    is unlinked on every path; in between, the extracted text is chunked
    with the default parameters and the chunks are indexed. *)
Lemma index_pdf_run (pdf_file : bytes) (filename : str) (w : world (scalar sv)) :
  match pdf_reader sv pdf_file with
  | None =>
      index_pdf (sv:=sv) pdf_file filename w
      = (Raise ExtractionError, after_tmp pdf_file w)
  | Some page_texts =>
      ∃ chunks,
        chunk_text (join_pages page_texts) default_chunk_size default_overlap
        = Some chunks
        ∧ index_pdf (sv:=sv) pdf_file filename w
          = let r := index_chunks (sv:=sv) filename chunks w in
            (r.1, after_tmp pdf_file r.2)
  end.
Proof.
  unfold index_pdf, mbind, M_bind, named_temporary_file, try_finally, load_pdf_text.
  simpl. rewrite lookup_insert_eq.
  destruct (pdf_reader sv pdf_file) as [page_texts|].
  - eexists. split; [by apply chunk_text_windows|].
    rewrite chunk_text_windows by done.
    set (chunks := windows _ _ _ _ _).
    pose proof (index_chunks_frame filename chunks w
                  (<[next_tmp w:=pdf_file]> (tmp_files w)) (S (next_tmp w))) as Hframe.
    destruct w as [c d t tmp n]. simpl in *. rewrite Hframe.
    pose proof (index_chunks_returns_or_raises filename chunks (World c d t tmp n)) as Hnd.
    pose proof (index_chunks_tmp filename chunks (World c d t tmp n)) as [Htmp Hnext].
    destruct (index_chunks filename chunks (World c d t tmp n)) as [[n0|e|] w'];
      simpl in *; [| |done].
    + unfold unlink, after_tmp. simpl. rewrite lookup_insert_eq, Htmp, Hnext. done.
    + unfold unlink, after_tmp. simpl. rewrite lookup_insert_eq, Htmp, Hnext. done.
  - unfold unlink. simpl. rewrite lookup_insert_eq. done.
Qed.

(** What a run of [index_pdf] that reaches the store passed to it. *)
Lemma index_pdf_add_call (pdf_file : bytes) (filename : str)
    (w : world (scalar sv)) documents metas embeddings ids_ :
  AddCall documents metas embeddings ids_
    ∈ new_events w (index_pdf (sv:=sv) pdf_file filename w).2 ->
  ∃ page_texts chunks,
    pdf_reader sv pdf_file = Some page_texts
    ∧ chunk_text (join_pages page_texts) default_chunk_size default_overlap
      = Some chunks
    ∧ kept_chunks chunks ≠ []
    ∧ embedding_service sv (trace w) documents = Some embeddings
    ∧ documents = map snd (kept_chunks chunks)
    ∧ metas = map (λ ic, Metadata filename ic.1) (kept_chunks chunks)
    ∧ ids_ = map (λ ic, chunk_id (path_stem sv filename) ic.1) (kept_chunks chunks)
    ∧ index_pdf (sv:=sv) pdf_file filename w
      = let r := index_chunks (sv:=sv) filename chunks w in
        (r.1, after_tmp pdf_file r.2).
Proof.
  intros Hin. pose proof (index_pdf_run pdf_file filename w) as Hrun.
  destruct (pdf_reader sv pdf_file) as [page_texts|].
  - destruct Hrun as (chunks & Hchunks & Hrun).
    exists page_texts, chunks. rewrite Hrun in Hin |- *. clear Hrun.
    destruct (decide (kept_chunks chunks = [])) as [Hkept|Hkept].
    { rewrite index_chunks_nothing_kept in Hin by done. simpl in Hin.
      unfold new_events in Hin. simpl in Hin. rewrite drop_all in Hin.
      by apply elem_of_nil in Hin. }
    rewrite index_chunks_kept in Hin by done.
    rewrite build_batch_kept in Hin. simpl in Hin.
    destruct (embedding_service sv (trace w) (map snd (kept_chunks chunks)))
      as [embs|] eqn:Hservice.
    + assert (AddCall documents metas embeddings ids_
              = AddCall (map snd (kept_chunks chunks))
                  (map (λ ic, Metadata filename ic.1) (kept_chunks chunks)) embs
                  (map (λ ic, chunk_id (path_stem sv filename) ic.1) (kept_chunks chunks)))
        as Heq.
      { destruct (same_lengths _ _ _ _); [destruct (check_dimension _ _)|];
          simpl in Hin;
          (erewrite new_events_app in Hin
             by (simpl; rewrite <- app_assoc; reflexivity));
          apply elem_of_cons in Hin as [Hin|Hin]; try done;
          apply elem_of_cons in Hin as [Hin|Hin]; try done;
          by apply elem_of_nil in Hin. }
      simplify_eq. done.
    + simpl in Hin. erewrite new_events_app in Hin by (simpl; reflexivity).
      apply elem_of_cons in Hin as [Hin|Hin]; [done|].
      by apply elem_of_nil in Hin.
  - rewrite Hrun in Hin. unfold new_events in Hin. simpl in Hin.
    rewrite drop_all in Hin. by apply elem_of_nil in Hin.
Qed.

(** ** Retrieval from an empty store *)

(** C1: for every question, if the vector store holds zero entries
    ([count() == 0]), [retrieve_context] returns the "no documents
    indexed" sentinel; it raises nothing, and it makes no call: the
    embedding service is not called and the process is left as it was. *)
Theorem retrieve_context_empty_store (question : str) (w : world (scalar sv)) :
  (collection_count (sv:=sv) w).1 = Return 0 ->
  let r := retrieve_context (sv:=sv) question w in
  r.1 = Return no_documents_indexed
  ∧ new_events w r.2 = []
  ∧ r.2 = w.
Proof.
  unfold collection_count. simpl. intros Hcount.
  unfold retrieve_context, mbind, M_bind, collection_count. simpl.
  assert (Z.of_nat (size (collection w)) = 0) as -> by congruence.
  simpl. unfold new_events. by rewrite drop_all.
Qed.

(** A freshly cleared store is an empty store. *)
Lemma retrieve_context_after_clear (question : str) (w : world (scalar sv)) :
  let w' := (clear_collection (sv:=sv) w).2 in
  retrieve_context (sv:=sv) question w' = (Return no_documents_indexed, w').
Proof. reflexivity. Qed.

(** ** Documents with nothing to index *)

(** C2: for every PDF whose extraction yields no text, or whose every
    chunk is blank after whitespace-stripping, [index_pdf] returns 0, calls
    neither the embedding service nor the store's [add] (it makes no call
    at all), and leaves the collection, hence its [count()], unchanged. *)
Theorem index_pdf_nothing_to_index (pdf_file : bytes) (filename : str)
    (w : world (scalar sv)) (page_texts : list str) :
  pdf_reader sv pdf_file = Some page_texts ->
  (join_pages page_texts = []
   ∨ ∃ chunks,
       chunk_text (join_pages page_texts) default_chunk_size default_overlap
       = Some chunks
       ∧ Forall (λ c, strip c = []) chunks) ->
  let r := index_pdf (sv:=sv) pdf_file filename w in
  r.1 = Return 0
  ∧ new_events w r.2 = []
  ∧ collection r.2 = collection w
  ∧ (collection_count (sv:=sv) r.2).1 = (collection_count (sv:=sv) w).1.
Proof.
  intros Hreader Hblank.
  pose proof (index_pdf_run pdf_file filename w) as Hrun.
  rewrite Hreader in Hrun. destruct Hrun as (chunks & Hchunks & Hrun).
  assert (kept_chunks chunks = []) as Hkept.
  { destruct Hblank as [Hempty|(chunks' & Hchunks' & Hall)].
    - rewrite Hempty, chunk_text_empty in Hchunks. by simplify_eq.
    - rewrite Hchunks in Hchunks'. simplify_eq.
      apply kept_chunks_none. eapply Forall_impl; [exact Hall|].
      intros c Hc. unfold nonblank. by rewrite Hc. }
  rewrite index_chunks_nothing_kept in Hrun by done.
  simpl. rewrite Hrun. unfold new_events, collection_count. simpl.
  by rewrite drop_all.
Qed.

(** ** What the store receives *)

(** C6: for every document [index_pdf] passes to the store, the chunks
    stored are the non-blank chunks; the id of each is ["{stem}_{i}"] with
    [i] its index in the sequence [chunk_text] returned, before the blank
    chunks are removed, and its metadata records the source file name and
    that same index; when [index_pdf] returns, the collection holds each of
    them under that id, with that text and that metadata. *)
Theorem index_pdf_chunk_ids (pdf_file : bytes) (filename : str)
    (w : world (scalar sv)) documents metas embeddings ids_ :
  AddCall documents metas embeddings ids_
    ∈ new_events w (index_pdf (sv:=sv) pdf_file filename w).2 ->
  ∃ page_texts chunks,
    pdf_reader sv pdf_file = Some page_texts
    ∧ chunk_text (join_pages page_texts) default_chunk_size default_overlap
      = Some chunks
    ∧ (∀ i c, (i, c) ∈ kept_chunks chunks ↔ chunks !! i = Some c ∧ nonblank c = true)
    ∧ documents = map snd (kept_chunks chunks)
    ∧ ids_ = map (λ ic, chunk_id (path_stem sv filename) ic.1) (kept_chunks chunks)
    ∧ metas = map (λ ic, Metadata filename ic.1) (kept_chunks chunks)
    ∧ ∀ n, (index_pdf (sv:=sv) pdf_file filename w).1 = Return n ->
        ∀ j i c, kept_chunks chunks !! j = Some (i, c) ->
          ∃ e, embeddings !! j = Some e
               ∧ collection (index_pdf (sv:=sv) pdf_file filename w).2
                 !! chunk_id (path_stem sv filename) i
                 = Some (Entry e c (Metadata filename i)).
Proof.
  intros Hin.
  apply index_pdf_add_call in Hin
    as (page_texts & chunks & Hreader & Hchunks & Hkept & Hservice
        & Hdocs & Hmetas & Hids & Hrun).
  exists page_texts, chunks.
  do 2 (split; [done|]). split; [apply elem_of_kept_chunks|].
  do 3 (split; [done|]).
  intros n. rewrite Hrun. rewrite index_chunks_kept by done.
  rewrite build_batch_kept. simpl. rewrite <- Hdocs, <- Hmetas, <- Hids, Hservice.
  destruct (same_lengths documents metas embeddings ids_) eqn:Hlen;
    [destruct (check_dimension _ _)|]; simpl; intros Hn; simplify_eq.
  intros j i c Hj.
  apply bool_decide_eq_true in Hlen as (_ & _ & Hlen).
  destruct (lookup_lt_is_Some_2 embeddings j) as [e He].
  { rewrite Hlen, length_map. by eapply lookup_lt_Some. }
  exists e. split; [done|].
  apply (insert_entries_lookup _ _ _ _ _ j); [apply kept_chunks_ids_NoDup| | |done|].
  - change (((λ ic : nat * str, chunk_id (path_stem sv filename) ic.1)
              <$> kept_chunks chunks) !! j
            = Some (chunk_id (path_stem sv filename) i)).
    by rewrite list_lookup_fmap, Hj.
  - change ((snd <$> kept_chunks chunks) !! j = Some c).
    by rewrite list_lookup_fmap, Hj.
  - change (((λ ic : nat * str, Metadata filename ic.1) <$> kept_chunks chunks) !! j
            = Some (Metadata filename i)).
    by rewrite list_lookup_fmap, Hj.
Qed.

(** C10, as the code has it: in every call of [index_pdf] that reaches the
    store, the documents, the metadatas and the ids passed to [add] have
    equal length, the number of non-blank chunks, by construction; the
    embeddings passed are the answer of the embedding service to those
    documents, and have that length too when the service answers one vector
    for each input text, which the code does not check.  When [index_pdf]
    returns, the four have equal length and it returns that length. *)
Theorem index_pdf_add_lengths (pdf_file : bytes) (filename : str)
    (w : world (scalar sv)) documents metas embeddings ids_ :
  AddCall documents metas embeddings ids_
    ∈ new_events w (index_pdf (sv:=sv) pdf_file filename w).2 ->
  length documents = length metas
  ∧ length metas = length ids_
  ∧ (∃ page_texts chunks,
       pdf_reader sv pdf_file = Some page_texts
       ∧ chunk_text (join_pages page_texts) default_chunk_size default_overlap
         = Some chunks
       ∧ length documents = length (List.filter nonblank chunks))
  ∧ embedding_service sv (trace w) documents = Some embeddings
  ∧ (one_vector_per_input sv -> length embeddings = length ids_)
  ∧ ∀ n, (index_pdf (sv:=sv) pdf_file filename w).1 = Return n ->
         n = Z.of_nat (length documents)
         ∧ length embeddings = length documents.
Proof.
  intros Hin.
  apply index_pdf_add_call in Hin
    as (page_texts & chunks & Hreader & Hchunks & Hkept & Hservice
        & Hdocs & Hmetas & Hids & Hrun).
  assert (Forall (λ text, text ≠ []) documents) as Hfull.
  { subst documents. apply Forall_forall. intros c Hc.
    apply list_elem_of_In, in_map_iff in Hc as ([i c'] & <- & Hic).
    apply list_elem_of_In, kept_chunks_lookup in Hic as [_ Hnb].
    simpl. by intros ->. }
  split; [subst documents metas; by rewrite !length_map|].
  split; [subst metas ids_; by rewrite !length_map|].
  split.
  { exists page_texts, chunks. repeat split; [done..|].
    subst documents. by rewrite <- kept_chunks_documents. }
  split; [done|]. split.
  { intros Hcontract. apply (Hcontract _ _ _ Hfull) in Hservice as Hlen.
    subst documents ids_. by rewrite !length_map in *. }
  intros n. rewrite Hrun. rewrite index_chunks_kept by done.
  rewrite build_batch_kept. cbn [all_chunks metadatas ids fst].
  rewrite <- Hdocs, <- Hmetas, <- Hids, Hservice.
  destruct (same_lengths documents metas embeddings ids_) eqn:Hsame;
    [destruct (check_dimension _ _)|]; cbn [fst]; intros Hn; simplify_eq.
  split; [done|].
  apply bool_decide_eq_true in Hsame as (Hd & _ & He). congruence.
Qed.

(** ** A document of 2000 characters *)



End Pipeline.

(** ** The pipeline on concrete inputs *)

Lemma sample_services_contract : one_vector_per_input sample_services.
Proof. intros t input data _ Hdata. simpl in Hdata. simplify_eq. apply length_map. Qed.

Example index_one_page :
  index_pdf (sv:=sample_services) invoice_pdf invoice_name empty_world
  = (Return 1,
     World {[ lit "invoice_0" :=
                Entry [19] (page_entry 0 invoice_pdf) (Metadata invoice_name 0) ]}
           (Some 1%nat)
           [EmbedCall [page_entry 0 invoice_pdf];
            AddCall [page_entry 0 invoice_pdf] [Metadata invoice_name 0] [[19]]
                    [lit "invoice_0"]]
           ∅ 1).
Proof. vm_compute. reflexivity. Qed.

Lemma retrieve_context_empty_store_witness :
  (collection_count (sv:=sample_services) empty_world).1 = Return 0
  ∧ let r := retrieve_context (sv:=sample_services) (lit "total due?") empty_world in
    r.1 = Return no_documents_indexed
    ∧ new_events empty_world r.2 = []
    ∧ r.2 = empty_world.
Proof.
  split; [reflexivity|].
  apply (retrieve_context_empty_store sample_services (lit "total due?") empty_world).
  reflexivity.
Defined.

Lemma index_pdf_nothing_to_index_witness :
  pdf_reader sample_services [] = Some [[]]
  ∧ (join_pages [[]] = []
     ∨ ∃ chunks,
         chunk_text (join_pages [[]]) default_chunk_size default_overlap = Some chunks
         ∧ Forall (λ c, strip c = []) chunks)
  ∧ let r := index_pdf (sv:=sample_services) [] (lit "scan.pdf") empty_world in
    r.1 = Return 0
    ∧ new_events empty_world r.2 = []
    ∧ collection r.2 = collection empty_world
    ∧ (collection_count (sv:=sample_services) r.2).1
      = (collection_count (sv:=sample_services) empty_world).1.
Proof.
  split; [reflexivity|]. split; [left; reflexivity|].
  apply (index_pdf_nothing_to_index sample_services [] (lit "scan.pdf")
           empty_world [[]]); [reflexivity|left; reflexivity].
Defined.

Lemma index_pdf_chunk_ids_witness :
  let r := index_pdf (sv:=sample_services) sparse_page invoice_name empty_world in
  let documents := [take 800 sparse_text; drop 1360 sparse_text] in
  let metas := [Metadata invoice_name 0; Metadata invoice_name 2] in
  let embeddings := [[800]; [640]] in
  let ids_ := [lit "invoice_0"; lit "invoice_2"] in
  AddCall documents metas embeddings ids_ ∈ new_events empty_world r.2
  ∧ ∃ page_texts chunks,
      pdf_reader sample_services sparse_page = Some page_texts
      ∧ chunk_text (join_pages page_texts) default_chunk_size default_overlap
        = Some chunks
      ∧ (∀ i c, (i, c) ∈ kept_chunks chunks ↔ chunks !! i = Some c ∧ nonblank c = true)
      ∧ documents = map snd (kept_chunks chunks)
      ∧ ids_ = map (λ ic, chunk_id (path_stem sample_services invoice_name) ic.1)
                   (kept_chunks chunks)
      ∧ metas = map (λ ic, Metadata invoice_name ic.1) (kept_chunks chunks)
      ∧ ∀ n, r.1 = Return n ->
          ∀ j i c, kept_chunks chunks !! j = Some (i, c) ->
            ∃ e, embeddings !! j = Some e
                 ∧ collection r.2 !! chunk_id (path_stem sample_services invoice_name) i
                   = Some (Entry e c (Metadata invoice_name i)).
Proof.
  assert (AddCall [take 800 sparse_text; drop 1360 sparse_text]
                  [Metadata invoice_name 0; Metadata invoice_name 2]
                  [[800]; [640]] [lit "invoice_0"; lit "invoice_2"]
          ∈ new_events empty_world
              (index_pdf (sv:=sample_services) sparse_page invoice_name empty_world).2)
    as Hin.
  { vm_compute. apply list_elem_of_further, list_elem_of_here. }
  split; [exact Hin|].
  exact (index_pdf_chunk_ids sample_services sparse_page invoice_name empty_world
           _ _ _ _ Hin).
Defined.

(** The run on the page with a blank middle window: the chunk of index 1 is
    skipped, and the second stored chunk keeps the index 2 of the sequence
    [chunk_text] returned, in its id and in its metadata. *)
Example index_sparse_page :
  let r := index_pdf (sv:=sample_services) sparse_page invoice_name empty_world in
  (nonblank <$> default_chunks sparse_text) = [true; false; true]
  ∧ r.1 = Return 2
  ∧ new_events empty_world r.2
    = [EmbedCall [take 800 sparse_text; drop 1360 sparse_text];
       AddCall [take 800 sparse_text; drop 1360 sparse_text]
               [Metadata invoice_name 0; Metadata invoice_name 2]
               [[800]; [640]] [lit "invoice_0"; lit "invoice_2"]]
  ∧ collection r.2 !! lit "invoice_2"
    = Some (Entry [640] (drop 1360 sparse_text) (Metadata invoice_name 2))
  ∧ collection r.2 !! lit "invoice_1" = None.
Proof. vm_compute. repeat split. Qed.

Lemma index_pdf_add_lengths_witness :
  let r := index_pdf (sv:=sample_services) sparse_page invoice_name empty_world in
  let documents := [take 800 sparse_text; drop 1360 sparse_text] in
  let metas := [Metadata invoice_name 0; Metadata invoice_name 2] in
  let embeddings := [[800]; [640]] in
  let ids_ := [lit "invoice_0"; lit "invoice_2"] in
  AddCall documents metas embeddings ids_ ∈ new_events empty_world r.2
  ∧ length documents = length metas
  ∧ length metas = length ids_
  ∧ (∃ page_texts chunks,
       pdf_reader sample_services sparse_page = Some page_texts
       ∧ chunk_text (join_pages page_texts) default_chunk_size default_overlap
         = Some chunks
       ∧ length documents = length (List.filter nonblank chunks))
  ∧ embedding_service sample_services (trace empty_world) documents = Some embeddings
  ∧ (one_vector_per_input sample_services -> length embeddings = length ids_)
  ∧ ∀ n, r.1 = Return n ->
         n = Z.of_nat (length documents) ∧ length embeddings = length documents.
Proof.
  assert (AddCall [take 800 sparse_text; drop 1360 sparse_text]
                  [Metadata invoice_name 0; Metadata invoice_name 2]
                  [[800]; [640]] [lit "invoice_0"; lit "invoice_2"]
          ∈ new_events empty_world
              (index_pdf (sv:=sample_services) sparse_page invoice_name empty_world).2)
    as Hin.
  { vm_compute. apply list_elem_of_further, list_elem_of_here. }
  split; [exact Hin|].
  exact (index_pdf_add_lengths sample_services sparse_page invoice_name empty_world
           _ _ _ _ Hin).
Defined.

(** C10, as written, fails with an embedding service that answers two
    vectors for three documents: [add] is reached with three documents,
    three metadatas, three ids and two embeddings, and the run raises. *)
Lemma index_pdf_add_lengths_counterexample :
  let r := index_pdf (sv:=short_answer_services) dense_page invoice_name empty_world in
  ∃ documents metas embeddings ids_,
    AddCall documents metas embeddings ids_ ∈ new_events empty_world r.2
    ∧ length documents = 3%nat
    ∧ length metas = 3%nat
    ∧ length ids_ = 3%nat
    ∧ length embeddings = 2%nat
    ∧ length embeddings ≠ length documents
    ∧ r.1 = Raise LengthMismatchError.
Proof.
  vm_compute. eexists _, _, _, _.
  split; [apply list_elem_of_further, list_elem_of_here|].
  repeat split. discriminate.
Qed.


(** The run on the page full of text. *)
Example index_dense_page :
  let r := index_pdf (sv:=sample_services) dense_page invoice_name empty_world in
  r.1 = Return 3
  ∧ ∃ documents metas embeddings,
      new_events empty_world r.2
      = [EmbedCall documents;
         AddCall documents metas embeddings
                 [lit "invoice_0"; lit "invoice_1"; lit "invoice_2"]].
Proof. vm_compute. split; [reflexivity|]. by eexists _, _, _. Qed.


(** ** More on the chunker *)

Lemma windows_lookup (text : str) (chunk_size overlap : Z) (n : nat) (start : Z) (i : nat) :
  windows text chunk_size overlap n start !! i
  = if decide (i < n)%nat
    then Some (slice text (start + Z.of_nat i * (chunk_size - overlap))
                     (start + Z.of_nat i * (chunk_size - overlap) + chunk_size))
    else None.
Proof.
  revert start i. induction n as [|n IH]; intros start i; simpl.
  - destruct (decide (i < 0)%nat); [lia|done].
  - destruct i as [|i]; simpl.
    + destruct (decide (0 < S n)%nat); [|lia].
      f_equal. f_equal; lia.
    + rewrite IH. destruct (decide (i < n)%nat), (decide (S i < S n)%nat); try lia; [|done].
      f_equal. f_equal; lia.
Qed.

Lemma iterations_lt_iff (len chunk_size overlap : Z) (i : nat) :
  overlap < chunk_size ->
  (i < iterations len chunk_size overlap 0)%nat
  ↔ Z.of_nat i * (chunk_size - overlap) < len.
Proof.
  intros Hs. unfold iterations, ceil_div. rewrite Z.sub_0_r.
  set (s := chunk_size - overlap). assert (0 < s) by (unfold s; lia).
  split.
  - intros Hlt.
    assert (Z.of_nat i + 1 <= (len + s - 1) / s) as Hq by lia.
    pose proof (Z.mul_div_le (len + s - 1) s ltac:(lia)). nia.
  - intros Hlt.
    assert (Z.of_nat i + 1 <= (len + s - 1) / s); [|lia].
    apply Z.div_le_lower_bound; lia.
Qed.

(** X1: the loop of [chunk_text] returns, for some number of iterations,
    exactly when [overlap < chunk_size] or the text is empty; with
    [chunk_size <= overlap] it never returns on a non-empty text. *)
Theorem chunk_loop_returns_iff (text : str) (chunk_size overlap : Z) :
  (∃ fuel, is_Some (chunk_loop fuel text chunk_size overlap 0 []))
  ↔ overlap < chunk_size ∨ text = [].
Proof.
  split.
  - intros [fuel [chunks Hrun]].
    destruct (Z.lt_ge_cases overlap chunk_size) as [Hs|Hs]; [by left|right].
    destruct text as [|c text]; [done|].
    by rewrite chunk_loop_diverges in Hrun.
  - intros [Hs| ->].
    + exists (S (length text)). fold (chunk_text text chunk_size overlap).
      by rewrite chunk_text_windows.
    + by exists 1%nat.
Qed.

(** X2: with [overlap < chunk_size], the chunk of index [i] is the slice
    [text[i*stride : i*stride + chunk_size]] for every multiple [i*stride]
    of the stride [chunk_size - overlap] below [len(text)], and there is no
    other chunk. *)
Theorem chunk_text_nth (text : str) (chunk_size overlap : Z) :
  overlap < chunk_size ->
  ∃ chunks,
    chunk_text text chunk_size overlap = Some chunks
    ∧ ∀ i : nat,
        chunks !! i
        = if decide (Z.of_nat i * (chunk_size - overlap) < py_len text)
          then Some (slice text (Z.of_nat i * (chunk_size - overlap))
                           (Z.of_nat i * (chunk_size - overlap) + chunk_size))
          else None.
Proof.
  intros Hs. eexists. split; [by apply chunk_text_windows|].
  intros i. rewrite windows_lookup.
  pose proof (iterations_lt_iff (py_len text) chunk_size overlap i Hs) as Hiff.
  destruct (decide (i < _)%nat), (decide (_ < py_len text)); tauto.
Qed.

Lemma chunk_text_nth_witness :
  120 < 800
  ∧ ∃ chunks,
      chunk_text (letters 2000) 800 120 = Some chunks
      ∧ ∀ i : nat,
          chunks !! i
          = if decide (Z.of_nat i * (800 - 120) < py_len (letters 2000))
            then Some (slice (letters 2000) (Z.of_nat i * (800 - 120))
                             (Z.of_nat i * (800 - 120) + 800))
            else None.
Proof. split; [lia|]. apply (chunk_text_nth (letters 2000) 800 120). lia. Defined.

Lemma windows_lookup_Some (text : str) (chunk_size overlap : Z) (i : nat) (c : str) :
  overlap < chunk_size ->
  windows text chunk_size overlap (iterations (py_len text) chunk_size overlap 0) 0 !! i
  = Some c ->
  Z.of_nat i * (chunk_size - overlap) < py_len text
  ∧ c = slice text (Z.of_nat i * (chunk_size - overlap))
              (Z.of_nat i * (chunk_size - overlap) + chunk_size).
Proof.
  intros Hs. rewrite windows_lookup.
  destruct (decide (i < _)%nat) as [Hlt|]; [|done].
  apply iterations_lt_iff in Hlt; [|done]. intros Hc. by simplify_eq.
Qed.

Lemma slice_window (text : str) (a chunk_size : Z) :
  0 <= a -> 0 <= chunk_size ->
  slice text a (a + chunk_size)
  = take (Z.to_nat (Z.min chunk_size (py_len text - a))) (drop (Z.to_nat a) text).
Proof.
  intros Ha Hc. rewrite slice_inside by lia. unfold py_len.
  destruct (Z.le_gt_cases a (Z.of_nat (length text))).
  - f_equal. lia.
  - rewrite !drop_ge by lia. by rewrite !take_nil.
Qed.

(** X3: with [0 <= chunk_size] and [overlap < chunk_size], the chunk of
    index [i] has [min(chunk_size, len(text) - i*stride)] characters: no
    chunk is longer than [chunk_size], and a chunk is shorter only when the
    text ends inside its window. *)
Theorem chunk_text_chunk_length (text : str) (chunk_size overlap : Z) :
  0 <= chunk_size -> overlap < chunk_size ->
  ∃ chunks,
    chunk_text text chunk_size overlap = Some chunks
    ∧ ∀ (i : nat) c,
        chunks !! i = Some c ->
        py_len c = Z.min chunk_size (py_len text - Z.of_nat i * (chunk_size - overlap)).
Proof.
  intros Hc Hs. eexists. split; [by apply chunk_text_windows|].
  intros i c Hi. apply windows_lookup_Some in Hi as [Hlt ->]; [|done].
  assert (0 <= Z.of_nat i * (chunk_size - overlap)) as Ha by nia.
  revert Hlt Ha. generalize (Z.of_nat i * (chunk_size - overlap)). intros a Hlt Ha.
  rewrite slice_window by lia. unfold py_len in *.
  rewrite length_take, length_drop. lia.
Qed.

Lemma chunk_text_chunk_length_witness :
  0 <= 800 ∧ 120 < 800
  ∧ ∃ chunks,
      chunk_text (letters 2000) 800 120 = Some chunks
      ∧ ∀ (i : nat) c,
          chunks !! i = Some c ->
          py_len c = Z.min 800 (py_len (letters 2000) - Z.of_nat i * (800 - 120)).
Proof.
  split; [lia|]. split; [lia|].
  apply (chunk_text_chunk_length (letters 2000) 800 120); lia.
Defined.

(** X4: with [0 <= overlap < chunk_size], consecutive chunks overlap: what
    a chunk holds after its first [chunk_size - overlap] characters is a
    prefix of the next chunk; for a chunk of full length that is its last
    [overlap] characters and the first [overlap] characters of the next. *)
Theorem chunk_text_overlap (text : str) (chunk_size overlap : Z) :
  0 <= overlap -> overlap < chunk_size ->
  ∃ chunks,
    chunk_text text chunk_size overlap = Some chunks
    ∧ ∀ (i : nat) c c',
        chunks !! i = Some c -> chunks !! S i = Some c' ->
        let stride := Z.to_nat (chunk_size - overlap) in
        drop stride c = take (length c - stride) c'
        ∧ (py_len c = chunk_size -> drop stride c = take (Z.to_nat overlap) c').
Proof.
  intros Ho Hs. eexists. split; [by apply chunk_text_windows|].
  intros i c c' Hi Hi' stride.
  apply windows_lookup_Some in Hi as [Hlt ->]; [|done].
  apply windows_lookup_Some in Hi' as [Hlt' ->]; [|done].
  replace (Z.of_nat (S i) * (chunk_size - overlap))
    with (Z.of_nat i * (chunk_size - overlap) + (chunk_size - overlap)) in * by lia.
  assert (0 <= Z.of_nat i * (chunk_size - overlap)) as Ha by nia.
  revert Hlt Hlt' Ha. generalize (Z.of_nat i * (chunk_size - overlap)).
  intros a Hlt Hlt' Ha.
  assert (drop stride (slice text a (a + chunk_size))
          = take (length (slice text a (a + chunk_size)) - stride)
              (slice text (a + (chunk_size - overlap))
                 (a + (chunk_size - overlap) + chunk_size))) as Heq.
  { rewrite !slice_window by lia. unfold py_len in *.
    rewrite skipn_firstn_comm, drop_drop, take_take, length_take, length_drop.
    replace (Z.to_nat (a + (chunk_size - overlap)))
      with (Z.to_nat a + stride)%nat by (unfold stride; lia).
    f_equal. unfold stride. lia. }
  split; [exact Heq|].
  intros Hfull. rewrite Heq. f_equal. unfold py_len in Hfull. unfold stride. lia.
Qed.

Lemma chunk_text_overlap_witness :
  0 <= 120 ∧ 120 < 800
  ∧ ∃ chunks,
      chunk_text (letters 2000) 800 120 = Some chunks
      ∧ ∀ (i : nat) c c',
          chunks !! i = Some c -> chunks !! S i = Some c' ->
          let stride := Z.to_nat (800 - 120) in
          drop stride c = take (length c - stride) c'
          ∧ (py_len c = 800 -> drop stride c = take (Z.to_nat 120) c').
Proof.
  split; [lia|]. split; [lia|].
  apply (chunk_text_overlap (letters 2000) 800 120); lia.
Defined.

(** X5: with [0 <= overlap < chunk_size], the chunks of a non-empty text
    start with its first [chunk_size] characters and end with a non-empty
    chunk that is a suffix of the text: the text is covered to its end. *)
Theorem chunk_text_first_last (text : str) (chunk_size overlap : Z) :
  text ≠ [] -> 0 <= overlap -> overlap < chunk_size ->
  ∃ chunks,
    chunk_text text chunk_size overlap = Some chunks
    ∧ head chunks = Some (take (Z.to_nat chunk_size) text)
    ∧ ∃ final, last chunks = Some final ∧ final ≠ [] ∧ final `suffix_of` text.
Proof.
  intros Hne Ho Hs.
  assert (0 < py_len text) as Hlen by (unfold py_len; destruct text; [done|simpl; lia]).
  eexists. split; [by apply chunk_text_windows|].
  set (n := iterations (py_len text) chunk_size overlap 0).
  assert (0 < n)%nat as Hn by (apply iterations_lt_iff; [done|simpl; lia]).
  split.
  - rewrite head_lookup, windows_lookup. destruct (decide (0 < n)%nat); [|lia].
    simpl. rewrite slice_window by lia. f_equal. simpl.
    rewrite drop_0. unfold py_len in *.
    destruct (Z.le_gt_cases chunk_size (Z.of_nat (length text))).
    + f_equal. lia.
    + rewrite !take_ge; [done|lia..].
  - rewrite last_lookup, length_windows, windows_lookup.
    destruct (decide (pred n < n)%nat); [|lia].
    assert (Z.of_nat (pred n) * (chunk_size - overlap) < py_len text) as Hlast
      by (apply iterations_lt_iff; [done|fold n; lia]).
    assert (¬ Z.of_nat n * (chunk_size - overlap) < py_len text) as Hend.
    { intros Hlt. apply iterations_lt_iff in Hlt; [|done]. fold n in Hlt. lia. }
    eexists. split; [done|]. rewrite Z.add_0_l.
    assert (0 <= Z.of_nat (pred n) * (chunk_size - overlap)) as Ha by nia.
    assert (py_len text
            <= Z.of_nat (pred n) * (chunk_size - overlap) + (chunk_size - overlap))
      as Hb by nia.
    revert Hlast Ha Hb. generalize (Z.of_nat (pred n) * (chunk_size - overlap)).
    intros a Hlast Ha Hb.
    rewrite slice_window by lia. unfold py_len in *.
    rewrite take_ge by (rewrite length_drop; lia).
    split.
    + intros Hnil. apply (f_equal length) in Hnil.
      rewrite length_drop in Hnil. simpl in Hnil. lia.
    + apply suffix_drop.
Qed.

Lemma chunk_text_first_last_witness :
  letters 2000 ≠ [] ∧ 0 <= 120 ∧ 120 < 800
  ∧ ∃ chunks,
      chunk_text (letters 2000) 800 120 = Some chunks
      ∧ head chunks = Some (take (Z.to_nat 800) (letters 2000))
      ∧ ∃ final, last chunks = Some final ∧ final ≠ [] ∧ final `suffix_of` letters 2000.
Proof.
  assert (letters 2000 ≠ []) as Hne by done.
  split; [exact Hne|]. split; [lia|]. split; [lia|].
  apply (chunk_text_first_last (letters 2000) 800 120); [exact Hne|lia|lia].
Defined.

(** ** The extracted text *)

Lemma fold_load_pages (l : list (nat * str)) (pages : list str) :
  fold_left load_pages_step l pages
  = pages ++ map (λ it, page_entry it.1 it.2) (List.filter (λ it, truthy it.2) l).
Proof.
  revert pages. induction l as [|[i t] l IH]; intros pages; simpl.
  - by rewrite app_nil_r.
  - rewrite IH. destruct (truthy t); simpl; [|done]. by rewrite <- app_assoc.
Qed.

Lemma join_substring (sep d : str) (l : list str) :
  d ∈ l -> ∃ pre post, join sep l = pre ++ d ++ post.
Proof.
  induction l as [|x l IH]; intros Hin; [by apply elem_of_nil in Hin|].
  apply elem_of_cons in Hin as [->|Hin].
  - destruct l as [|y l]; simpl.
    + exists [], []. by rewrite app_nil_r.
    + by exists [], (sep ++ join sep (y :: l)).
  - destruct (IH Hin) as (pre & post & Heq).
    destruct l as [|y l]; [by apply elem_of_nil in Hin|].
    exists (x ++ sep ++ pre), post.
    change (join sep (x :: y :: l)) with (x ++ sep ++ join sep (y :: l)).
    rewrite Heq. by rewrite <- !app_assoc.
Qed.

Lemma join_cons_head (sep : str) (c : ascii) (x : str) (l : list str) :
  ∃ rest, join sep ((c :: x) :: l) = c :: rest.
Proof. destruct l; simpl; eauto. Qed.

Lemma truthy_true_iff {A} (l : list A) : truthy l = true ↔ l ≠ [].
Proof. by destruct l. Qed.

(** X6: a page with text appears in the extracted text under the marker
    [[Page i+1]] of its position [i] in the PDF, whatever pages before it
    were left out for having no text. *)
Theorem join_pages_page (page_texts : list str) (i : nat) (t : str) :
  page_texts !! i = Some t -> t ≠ [] ->
  ∃ pre post, join_pages page_texts = pre ++ page_entry i t ++ post.
Proof.
  intros Hi Ht. unfold join_pages. rewrite fold_load_pages, app_nil_l.
  apply join_substring.
  apply list_elem_of_In, in_map_iff. exists (i, t). split; [done|].
  apply filter_In. split; [|by apply truthy_true_iff].
  apply list_elem_of_In. by apply (enumerate_from_elem_of page_texts 0 i t).
Qed.

Lemma join_pages_page_witness :
  [[]; lit "Total: 42"] !! 1%nat = Some (lit "Total: 42")
  ∧ lit "Total: 42" ≠ []
  ∧ ∃ pre post,
      join_pages [[]; lit "Total: 42"] = pre ++ page_entry 1 (lit "Total: 42") ++ post.
Proof.
  assert (lit "Total: 42" ≠ []) as Hne by done.
  split; [reflexivity|]. split; [exact Hne|].
  exact (join_pages_page [[]; lit "Total: 42"] 1 (lit "Total: 42") eq_refl Hne).
Defined.

Lemma join_pages_entries (page_texts : list str) :
  join_pages page_texts
  = join [newline]
      (map (λ it, page_entry it.1 it.2)
         (List.filter (λ it, truthy it.2) (enumerate page_texts))).
Proof. unfold join_pages. by rewrite fold_load_pages. Qed.

Lemma filter_truthy_nil (page_texts : list str) (k : nat) :
  List.filter (λ it : nat * str, truthy it.2) (enumerate_from k page_texts) = []
  ↔ Forall (λ t, t = []) page_texts.
Proof.
  revert k. induction page_texts as [|t l IH]; intros k; simpl; [by split|].
  destruct t as [|c t]; simpl.
  - rewrite IH. split; [by constructor|]. by inversion 1.
  - split; [done|]. by inversion 1.
Qed.

(** The extracted text of a PDF with some text starts with a page marker. *)
Lemma join_pages_head (page_texts : list str) :
  ¬ Forall (λ t, t = []) page_texts ->
  ∃ rest, join_pages page_texts = "["%char :: rest.
Proof.
  intros Hsome. rewrite join_pages_entries.
  destruct (List.filter _ (enumerate page_texts)) as [|[i t] l] eqn:Hf.
  - by apply filter_truthy_nil in Hf.
  - simpl map. unfold page_entry at 1. apply join_cons_head.
Qed.

(** X7: the extracted text is empty exactly when no page of the PDF has
    text. *)
Theorem join_pages_nil_iff (page_texts : list str) :
  join_pages page_texts = [] ↔ Forall (λ t, t = []) page_texts.
Proof.
  split.
  - intros Hnil. destruct (decide (Forall (λ t, t = []) page_texts)) as [|Hsome]; [done|].
    apply join_pages_head in Hsome as [rest Hrest]. congruence.
  - intros Hall. rewrite join_pages_entries.
    apply (filter_truthy_nil page_texts 0) in Hall. unfold enumerate.
    by rewrite Hall.
Qed.

(** ** Outcomes of the indexing pipeline *)

Lemma chunk_text_default (text : str) :
  chunk_text text default_chunk_size default_overlap = Some (default_chunks text).
Proof. by apply chunk_text_windows. Qed.

Lemma default_chunks_nil : default_chunks [] = [].
Proof. by vm_compute. Qed.

Lemma default_chunks_head (c : ascii) (rest : str) :
  ∃ l, default_chunks (c :: rest) = (c :: take 799 rest) :: l.
Proof.
  unfold default_chunks. rewrite iterations_step; [|done|unfold py_len; simpl; lia].
  simpl. eexists. f_equal.
  rewrite slice_window; [|done..]. rewrite drop_0.
  replace (Z.to_nat (Z.min default_chunk_size (py_len (c :: rest) - 0)))
    with (S (Nat.min 799 (length rest)))
    by (unfold py_len, default_chunk_size; simpl length; lia).
  rewrite firstn_cons. f_equal.
  destruct (Nat.min_spec 799 (length rest)) as [[? ->]|[? ->]]; [done|].
  by rewrite !take_ge by lia.
Qed.

Lemma all_chunks_batch (filename stem : str) (chunks : list str) :
  all_chunks (build_batch filename stem chunks) = List.filter nonblank chunks.
Proof. rewrite build_batch_kept. simpl. apply kept_chunks_documents. Qed.

Lemma all_chunks_nil_iff (filename stem : str) (chunks : list str) :
  all_chunks (build_batch filename stem chunks) = [] ↔ kept_chunks chunks = [].
Proof.
  rewrite build_batch_kept. simpl. destruct (kept_chunks chunks); by split.
Qed.

Lemma batch_lengths (filename stem : str) (chunks : list str) :
  let b := build_batch filename stem chunks in
  length (metadatas b) = length (all_chunks b) ∧ length (ids b) = length (all_chunks b).
Proof. rewrite build_batch_kept. simpl. by rewrite !length_map. Qed.

Section Outcomes.
Context (sv : services).

(** Every way a run of [index_pdf] can go. *)
Lemma index_pdf_unfold (pdf_file : bytes) (filename : str) (w : world (scalar sv)) :
  index_pdf (sv:=sv) pdf_file filename w
  = match pdf_reader sv pdf_file with
    | None => (Raise ExtractionError, after_tmp pdf_file w)
    | Some page_texts =>
        let b := pdf_batch sv filename page_texts in
        match all_chunks b with
        | [] => (Return 0, after_tmp pdf_file w)
        | _ :: _ =>
            match embedding_service sv (trace w) (all_chunks b) with
            | None =>
                (Raise EmbeddingServiceError,
                 after_tmp pdf_file
                   (with_trace (trace w ++ [EmbedCall (all_chunks b)]) w))
            | Some embeddings =>
                let t := trace w
                         ++ [EmbedCall (all_chunks b);
                             AddCall (all_chunks b) (metadatas b) embeddings (ids b)] in
                if same_lengths (all_chunks b) (metadatas b) embeddings (ids b) then
                  match check_dimension (dimension w) embeddings with
                  | None =>
                      (Raise DimensionMismatchError, after_tmp pdf_file (with_trace t w))
                  | Some dim =>
                      (Return (Z.of_nat (length (all_chunks b))),
                       after_tmp pdf_file
                         (World (insert_entries (ids b) (all_chunks b) embeddings
                                   (metadatas b) (collection w))
                                dim t (tmp_files w) (next_tmp w)))
                  end
                else (Raise LengthMismatchError, after_tmp pdf_file (with_trace t w))
            end
        end
    end.
Proof.
  pose proof (index_pdf_run sv pdf_file filename w) as Hrun.
  destruct (pdf_reader sv pdf_file) as [page_texts|]; [|done].
  destruct Hrun as (chunks & Hchunks & ->).
  rewrite chunk_text_default in Hchunks. simplify_eq.
  unfold pdf_batch. set (chunks := default_chunks (join_pages page_texts)).
  destruct (decide (kept_chunks chunks = [])) as [Hkept|Hkept].
  - rewrite index_chunks_nothing_kept by done.
    apply (all_chunks_nil_iff filename (path_stem sv filename)) in Hkept.
    cbv zeta. cbn [fst snd]. by rewrite Hkept.
  - rewrite index_chunks_kept by done.
    assert (all_chunks (build_batch filename (path_stem sv filename) chunks) ≠ []) as Hb
      by (by rewrite all_chunks_nil_iff).
    cbv zeta. set (b := build_batch filename (path_stem sv filename) chunks) in *.
    destruct (all_chunks b) as [|d ds] eqn:Hd; [done|].
    destruct (embedding_service sv (trace w) (d :: ds)); [|done].
    rewrite <- app_assoc. cbn [fst snd app].
    destruct (same_lengths _ _ _ _); [|done].
    destruct (check_dimension _ _); done.
Qed.
End Outcomes.

Lemma nonblank_bracket (rest : str) : nonblank ("["%char :: rest) = true.
Proof.
  apply nonblank_iff. exists "["%char. split; [apply list_elem_of_here|reflexivity].
Qed.

Lemma dom_insert_entries {scalar} (ids_ documents : list str)
    (embeddings : list (list scalar)) (metas : list metadata)
    (m : gmap str (entry scalar)) :
  length documents = length ids_ -> length metas = length ids_ ->
  length embeddings = length ids_ ->
  dom (insert_entries ids_ documents embeddings metas m) = list_to_set ids_ ∪ dom m.
Proof.
  revert documents embeddings metas m.
  induction ids_ as [|i ids_ IH]; intros documents embeddings metas m Hd Hm He.
  - simpl. set_solver.
  - destruct documents, embeddings, metas; simpl in *; try lia.
    rewrite IH by lia. rewrite dom_insert_L. set_solver.
Qed.

Lemma same_lengths_true {scalar} (documents : list str) (metas : list metadata)
    (embeddings : list (list scalar)) (ids_ : list str) :
  same_lengths documents metas embeddings ids_ = true ->
  length documents = length ids_ ∧ length metas = length ids_
  ∧ length embeddings = length ids_.
Proof. unfold same_lengths. by intros ?%bool_decide_eq_true. Qed.

Lemma nonblank_has_visible (chunk : str) : nonblank chunk = has_visible chunk.
Proof.
  apply Bool.eq_iff_eq_true. rewrite nonblank_iff. unfold has_visible.
  rewrite existsb_exists. split.
  - intros (c & Hin & Hc). exists c. rewrite <- list_elem_of_In. by rewrite Hc.
  - intros (c & Hin & Hc). exists c. rewrite list_elem_of_In.
    split; [done|]. by apply negb_true_iff.
Qed.

(** The documents of a batch are the chunks with a character that is not
    white space, in the order of the chunks. *)
Lemma pdf_batch_documents (sv : services) (filename : str) (page_texts : list str) :
  all_chunks (pdf_batch sv filename page_texts)
  = List.filter has_visible (default_chunks (join_pages page_texts)).
Proof.
  unfold pdf_batch. rewrite all_chunks_batch.
  apply filter_ext. intros c. apply nonblank_has_visible.
Qed.

(** Case analysis on a run of [index_pdf]. *)
Ltac index_pdf_cases :=
  rewrite index_pdf_unfold; cbv zeta;
  destruct (pdf_reader _ _) as [?page_texts|] eqn:?Hreader;
  [ destruct (all_chunks (pdf_batch _ _ _)) as [|?d ?ds] eqn:?Hdocs;
    [ | destruct (embedding_service _ _ _) as [?embeddings|] eqn:?Hservice;
        [ destruct (same_lengths _ _ _ _) eqn:?Hsame;
          [ destruct (check_dimension _ _) as [?dim|] eqn:?Hdim | ] | ] ] | ];
  cbn [fst snd after_tmp with_trace collection dimension trace tmp_files next_tmp].

Section IndexPdf.
Context (sv : services).

(** X8: for a PDF the library reads, [index_pdf] returns 0 exactly when no
    page has text: the first chunk of a non-empty extracted text starts with
    a page marker, so it is never blank. *)
Theorem index_pdf_returns_zero_iff (pdf_file : bytes) (filename : str)
    (w : world (scalar sv)) (page_texts : list str) :
  pdf_reader sv pdf_file = Some page_texts ->
  (index_pdf (sv:=sv) pdf_file filename w).1 = Return 0
  ↔ Forall (λ t, t = []) page_texts.
Proof.
  intros Hreader. rewrite index_pdf_unfold, Hreader. cbv zeta.
  unfold pdf_batch. rewrite all_chunks_batch.
  destruct (decide (Forall (λ t, t = []) page_texts)) as [Hall|Hsome].
  - assert (join_pages page_texts = []) as -> by (by apply join_pages_nil_iff).
    by rewrite default_chunks_nil.
  - split; [|done]. intros Hzero. exfalso.
    destruct (join_pages_head page_texts Hsome) as [rest Htext].
    destruct (default_chunks_head "[" rest) as [l Hchunks].
    rewrite Htext, Hchunks in Hzero.
    cbn [List.filter] in Hzero. rewrite nonblank_bracket in Hzero.
    destruct (embedding_service _ _ _); [|done].
    destruct (same_lengths _ _ _ _); [|done].
    destruct (check_dimension _ _); [|done].
    cbn [fst length] in Hzero. inversion Hzero.
Qed.

(** X10: [index_pdf] returns or raises, and a run that raises has stored
    nothing: the collection is as it was. *)
Theorem index_pdf_no_partial_commit (pdf_file : bytes) (filename : str)
    (w : world (scalar sv)) :
  let r := index_pdf (sv:=sv) pdf_file filename w in
  r.1 ≠ Diverge
  ∧ ∀ e, r.1 = Raise e ->
      collection r.2 = collection w ∧ dimension r.2 = dimension w.
Proof. cbv zeta. index_pdf_cases; (split; [done|]); by intros e He. Qed.

(** X11: [index_pdf] raises the extraction error exactly when the PDF
    library rejects the file, and then nothing was requested from the
    embedding service or the store. *)
Theorem index_pdf_extraction_error (pdf_file : bytes) (filename : str)
    (w : world (scalar sv)) :
  let r := index_pdf (sv:=sv) pdf_file filename w in
  (r.1 = Raise ExtractionError ↔ pdf_reader sv pdf_file = None)
  ∧ (r.1 = Raise ExtractionError -> new_events w r.2 = []).
Proof.
  cbv zeta. index_pdf_cases; (split; [by split|]); try done.
  intros _. unfold new_events. cbn [trace]. by rewrite drop_all.
Qed.

(** X12: when [index_pdf] raises the error of the embedding service, the
    one call of the run is the embedding request for the chunks of the
    extracted text that have a character that is not white space, in their
    order: [add] was not called and the collection is as it was. *)
Theorem index_pdf_embedding_failure (pdf_file : bytes) (filename : str)
    (w : world (scalar sv)) :
  let r := index_pdf (sv:=sv) pdf_file filename w in
  r.1 = Raise EmbeddingServiceError ->
  ∃ page_texts chunks documents,
    pdf_reader sv pdf_file = Some page_texts
    ∧ chunk_text (join_pages page_texts) default_chunk_size default_overlap
      = Some chunks
    ∧ documents = List.filter has_visible chunks
    ∧ documents ≠ []
    ∧ embedding_service sv (trace w) documents = None
    ∧ new_events w r.2 = [EmbedCall documents]
    ∧ collection r.2 = collection w.
Proof.
  cbv zeta. index_pdf_cases; try done. intros _.
  exists page_texts, (default_chunks (join_pages page_texts)), (d :: ds).
  split; [done|]. split; [apply chunk_text_default|].
  split; [by rewrite <- (pdf_batch_documents sv filename)|].
  repeat split; [done..|]. by apply new_events_app.
Qed.

(** X13: a run of [index_pdf] that returns [n] made no call when [n = 0];
    otherwise it made exactly two, in this order: one embedding request for
    the [n] chunks of the extracted text that have a character that is not
    white space, all in one batch and in their order, and one [add] of those
    same documents with the vectors the service answered. *)
Theorem index_pdf_calls (pdf_file : bytes) (filename : str)
    (w : world (scalar sv)) (n : Z) :
  let r := index_pdf (sv:=sv) pdf_file filename w in
  r.1 = Return n ->
  ∃ page_texts chunks,
    pdf_reader sv pdf_file = Some page_texts
    ∧ chunk_text (join_pages page_texts) default_chunk_size default_overlap
      = Some chunks
    ∧ n = Z.of_nat (length (List.filter has_visible chunks))
    ∧ ((n = 0 ∧ new_events w r.2 = [])
       ∨ (0 < n
          ∧ ∃ metas embeddings ids_,
              embedding_service sv (trace w) (List.filter has_visible chunks)
              = Some embeddings
              ∧ new_events w r.2
                = [EmbedCall (List.filter has_visible chunks);
                   AddCall (List.filter has_visible chunks) metas embeddings ids_])).
Proof.
  cbv zeta. index_pdf_cases; try done; intros Hn; simplify_eq;
    exists page_texts, (default_chunks (join_pages page_texts));
    (split; [done|]); (split; [apply chunk_text_default|]);
    rewrite <- (pdf_batch_documents sv filename), Hdocs.
  - split; [done|]. left. split; [done|]. unfold new_events. cbn [trace].
    by rewrite drop_all.
  - split; [done|]. right. split; [cbn [length]; lia|].
    exists (metadatas (pdf_batch sv filename page_texts)), embeddings,
      (ids (pdf_batch sv filename page_texts)).
    split; [done|]. by apply new_events_app.
Qed.
End IndexPdf.

(** ** The collection after a run of the indexing pipeline *)

Lemma batch_ids_NoDup (filename stem : str) (chunks : list str) :
  NoDup (ids (build_batch filename stem chunks)).
Proof. rewrite build_batch_kept. apply kept_chunks_ids_NoDup. Qed.

Lemma batch_ids_form (filename stem : str) (chunks : list str) (id : str) :
  id ∈ ids (build_batch filename stem chunks) -> ∃ i, id = chunk_id stem i.
Proof.
  rewrite build_batch_kept. cbn [ids]. intros Hin.
  apply list_elem_of_In, in_map_iff in Hin as ([i c] & <- & _). by exists i.
Qed.

Lemma size_insert_entries {scalar} (ids_ documents : list str)
    (embeddings : list (list scalar)) (metas : list metadata)
    (m : gmap str (entry scalar)) :
  same_lengths documents metas embeddings ids_ = true -> NoDup ids_ ->
  (size (insert_entries ids_ documents embeddings metas m) <= size m + length ids_)%nat
  ∧ ((∀ id, id ∈ ids_ -> m !! id = None) ->
     size (insert_entries ids_ documents embeddings metas m)
     = (size m + length ids_)%nat).
Proof.
  intros (Hd & Hm & He)%same_lengths_true Hnd.
  rewrite <- !size_dom, dom_insert_entries by done.
  rewrite <- (size_list_to_set (C:=gset str) ids_) by done.
  split.
  - rewrite size_union_alt.
    pose proof (subseteq_size (dom m ∖ list_to_set ids_) (dom m)) as Hle.
    assert (dom m ∖ list_to_set ids_ ⊆ dom m) as Hsub by set_solver.
    specialize (Hle Hsub). lia.
  - intros Hfresh. rewrite size_union; [lia|].
    intros id Hin Hdom. apply elem_of_list_to_set in Hin.
    apply elem_of_dom in Hdom as [e He']. rewrite Hfresh in He' by done. done.
Qed.

Section Collection.
Context (sv : services).

(** X14: when [index_pdf] returns [n], [count()] has grown by at most [n],
    and by exactly [n] when the collection held no id of the form
    ["{stem}_{i}"] for the stem of the file name, as on an empty
    collection. *)
Theorem index_pdf_count (pdf_file : bytes) (filename : str)
    (w : world (scalar sv)) (n : Z) :
  let r := index_pdf (sv:=sv) pdf_file filename w in
  r.1 = Return n ->
  0 <= n
  ∧ Z.of_nat (size (collection r.2)) <= Z.of_nat (size (collection w)) + n
  ∧ ((∀ i, collection w !! chunk_id (path_stem sv filename) i = None) ->
     Z.of_nat (size (collection r.2)) = Z.of_nat (size (collection w)) + n).
Proof.
  cbv zeta. index_pdf_cases; try done; intros Hn; simplify_eq.
  - repeat split; lia.
  - pose proof (batch_lengths filename (path_stem sv filename)
                  (default_chunks (join_pages page_texts))) as [_ Hids].
    fold (pdf_batch sv filename page_texts) in Hids. rewrite Hdocs in Hids.
    pose proof (size_insert_entries _ _ _ _ (collection w) Hsame
                  (batch_ids_NoDup _ _ _)) as [Hle Heq].
    rewrite Hids in Hle, Heq. cbn [length] in Hle, Heq. split; [lia|]. split; [lia|].
    intros Hfresh. rewrite Heq; [lia|].
    intros id [i ->]%batch_ids_form. apply Hfresh.
Qed.

(** The ids of the collection after a run that returns. *)
Lemma index_pdf_return_dom (pdf_file : bytes) (filename : str)
    (w : world (scalar sv)) (n : Z) :
  (index_pdf (sv:=sv) pdf_file filename w).1 = Return n ->
  ∃ page_texts,
    pdf_reader sv pdf_file = Some page_texts
    ∧ n = Z.of_nat (length (ids (pdf_batch sv filename page_texts)))
    ∧ dom (collection (index_pdf (sv:=sv) pdf_file filename w).2)
      = list_to_set (ids (pdf_batch sv filename page_texts)) ∪ dom (collection w).
Proof.
  index_pdf_cases; try done; intros Hn; simplify_eq; exists page_texts;
    pose proof (batch_lengths filename (path_stem sv filename)
                  (default_chunks (join_pages page_texts))) as [_ Hids];
    fold (pdf_batch sv filename page_texts) in Hids; rewrite Hdocs in Hids.
  - destruct (ids (pdf_batch sv filename page_texts)); [|done].
    split; [done|]. split; [done|]. set_solver.
  - split; [done|]. split; [by rewrite Hids|].
    apply same_lengths_true in Hsame as (? & ? & ?).
    by rewrite dom_insert_entries.
Qed.

(** X15: indexing the same file under the same name a second time replaces
    its chunks: when both runs return, they return the same count, and the
    collection holds the same ids, so [count()] does not grow. *)
Theorem index_pdf_reindex (pdf_file : bytes) (filename : str)
    (w : world (scalar sv)) (n n' : Z) :
  let r := index_pdf (sv:=sv) pdf_file filename w in
  let r' := index_pdf (sv:=sv) pdf_file filename r.2 in
  r.1 = Return n -> r'.1 = Return n' ->
  n' = n
  ∧ stored_ids r'.2 = stored_ids r.2
  ∧ size (collection r'.2) = size (collection r.2).
Proof.
  cbv zeta. unfold stored_ids. rewrite <- !size_dom. intros Hn Hn'.
  apply index_pdf_return_dom in Hn as (page_texts & Hreader & -> & Hdom).
  apply index_pdf_return_dom in Hn' as (page_texts' & Hreader' & -> & Hdom').
  rewrite Hreader in Hreader'. simplify_eq.
  rewrite Hdom', Hdom.
  assert (∀ X Y : gset str, X ∪ (X ∪ Y) = X ∪ Y) as Hunion by set_solver.
  by rewrite Hunion.
Qed.

(** X16: whatever the outcome, [index_pdf] touches no entry whose id is not
    of the form ["{stem}_{i}"] for the stem of the file name. *)
Theorem index_pdf_other_ids (pdf_file : bytes) (filename : str)
    (w : world (scalar sv)) (id : str) :
  (∀ i, id ≠ chunk_id (path_stem sv filename) i) ->
  collection (index_pdf (sv:=sv) pdf_file filename w).2 !! id = collection w !! id.
Proof.
  intros Hother. index_pdf_cases; try done.
  apply insert_entries_other. intros [i ->]%batch_ids_form. by eapply Hother.
Qed.
End Collection.

(** ** Runs of the indexing pipeline on concrete inputs *)

Lemma index_pdf_returns_zero_iff_witness :
  pdf_reader sample_services invoice_pdf = Some [invoice_pdf]
  ∧ ((index_pdf (sv:=sample_services) invoice_pdf invoice_name empty_world).1 = Return 0
     ↔ Forall (λ t, t = []) [invoice_pdf]).
Proof.
  split; [reflexivity|].
  exact (index_pdf_returns_zero_iff sample_services invoice_pdf invoice_name
           empty_world [invoice_pdf] eq_refl).
Defined.

Lemma index_pdf_embedding_failure_witness :
  let r := index_pdf (sv:=service_down) sparse_page invoice_name empty_world in
  r.1 = Raise EmbeddingServiceError
  ∧ ∃ page_texts chunks documents,
      pdf_reader service_down sparse_page = Some page_texts
      ∧ chunk_text (join_pages page_texts) default_chunk_size default_overlap
        = Some chunks
      ∧ documents = List.filter has_visible chunks
      ∧ documents ≠ []
      ∧ embedding_service service_down (trace empty_world) documents = None
      ∧ new_events empty_world r.2 = [EmbedCall documents]
      ∧ collection r.2 = collection empty_world.
Proof.
  assert ((index_pdf (sv:=service_down) sparse_page invoice_name empty_world).1
          = Raise EmbeddingServiceError) as Hraise by (by vm_compute).
  split; [exact Hraise|].
  exact (index_pdf_embedding_failure service_down sparse_page invoice_name
           empty_world Hraise).
Defined.

Lemma index_pdf_calls_witness :
  let r := index_pdf (sv:=sample_services) sparse_page invoice_name empty_world in
  r.1 = Return 2
  ∧ ∃ page_texts chunks,
      pdf_reader sample_services sparse_page = Some page_texts
      ∧ chunk_text (join_pages page_texts) default_chunk_size default_overlap
        = Some chunks
      ∧ 2 = Z.of_nat (length (List.filter has_visible chunks))
      ∧ ((2 = 0 ∧ new_events empty_world r.2 = [])
         ∨ (0 < 2
            ∧ ∃ metas embeddings ids_,
                embedding_service sample_services (trace empty_world)
                  (List.filter has_visible chunks)
                = Some embeddings
                ∧ new_events empty_world r.2
                  = [EmbedCall (List.filter has_visible chunks);
                     AddCall (List.filter has_visible chunks) metas embeddings ids_])).
Proof.
  assert ((index_pdf (sv:=sample_services) sparse_page invoice_name empty_world).1
          = Return 2) as Hret by (by vm_compute).
  split; [exact Hret|].
  exact (index_pdf_calls sample_services sparse_page invoice_name empty_world 2 Hret).
Defined.

Lemma index_pdf_count_witness :
  let r := index_pdf (sv:=sample_services) invoice_pdf invoice_name empty_world in
  r.1 = Return 1
  ∧ 0 <= 1
  ∧ Z.of_nat (size (collection r.2)) <= Z.of_nat (size (collection empty_world)) + 1
  ∧ ((∀ i, collection empty_world
             !! chunk_id (path_stem sample_services invoice_name) i = None) ->
     Z.of_nat (size (collection r.2)) = Z.of_nat (size (collection empty_world)) + 1).
Proof.
  assert ((index_pdf (sv:=sample_services) invoice_pdf invoice_name empty_world).1
          = Return 1) as Hret by (by vm_compute).
  split; [exact Hret|].
  exact (index_pdf_count sample_services invoice_pdf invoice_name empty_world 1 Hret).
Defined.

Lemma index_pdf_reindex_witness :
  let r := index_pdf (sv:=sample_services) invoice_pdf invoice_name empty_world in
  let r' := index_pdf (sv:=sample_services) invoice_pdf invoice_name r.2 in
  r.1 = Return 1 ∧ r'.1 = Return 1
  ∧ 1 = 1
  ∧ stored_ids r'.2 = stored_ids r.2
  ∧ size (collection r'.2) = size (collection r.2).
Proof.
  assert ((index_pdf (sv:=sample_services) invoice_pdf invoice_name empty_world).1
          = Return 1) as Hret by (by vm_compute).
  assert ((index_pdf (sv:=sample_services) invoice_pdf invoice_name
             (index_pdf (sv:=sample_services) invoice_pdf invoice_name empty_world).2).1
          = Return 1) as Hret' by (by vm_compute).
  split; [exact Hret|]. split; [exact Hret'|].
  exact (index_pdf_reindex sample_services invoice_pdf invoice_name empty_world 1 1
           Hret Hret').
Defined.

Lemma index_pdf_other_ids_witness :
  (∀ i, lit "receipt_0" ≠ chunk_id (path_stem sample_services invoice_name) i)
  ∧ collection (index_pdf (sv:=sample_services) invoice_pdf invoice_name empty_world).2
      !! lit "receipt_0"
    = collection empty_world !! lit "receipt_0".
Proof.
  assert (∀ i, lit "receipt_0" ≠ chunk_id (path_stem sample_services invoice_name) i)
    as Hother by (intros i Heq; vm_compute in Heq; discriminate Heq).
  split; [exact Hother|].
  exact (index_pdf_other_ids sample_services invoice_pdf invoice_name empty_world
           (lit "receipt_0") Hother).
Defined.

(** ** Runs of the retrieval pipeline *)

Section Retrieval.
Context (sv : services).

(** Every way a run of [retrieve_context] can go. *)
Lemma retrieve_context_unfold (question : str) (w : world (scalar sv)) :
  retrieve_context (sv:=sv) question w
  = if Z.of_nat (size (collection w)) =? 0 then (Return no_documents_indexed, w)
    else
      match embedding_service sv (trace w) [question] with
      | None =>
          (Raise EmbeddingServiceError,
           with_trace (trace w ++ [EmbedCall [question]]) w)
      | Some [] =>
          (Raise IndexError, with_trace (trace w ++ [EmbedCall [question]]) w)
      | Some (q_embedding :: _) =>
          let documents := nearest sv (collection w) q_embedding 4 in
          (Return (if truthy documents then join [newline; newline] documents
                   else no_relevant_context),
           with_trace (trace w ++ [EmbedCall [question]; QueryCall q_embedding 4]) w)
      end.
Proof.
  unfold retrieve_context, mbind, M_bind, collection_count.
  destruct (Z.of_nat (size (collection w)) =? 0); [done|].
  unfold embeddings_create, log. cbn [fst snd trace].
  destruct (embedding_service sv (trace w) [question]) as [[|q_embedding data]|];
    [done| |done].
  unfold collection_query, mbind, M_bind, log, with_trace.
  cbn [fst snd trace collection]. rewrite <- app_assoc.
  by destruct (nearest sv (collection w) q_embedding 4).
Qed.

(** X17: [retrieve_context] only reads the store: whatever the outcome, the
    collection is as it was, and the calls of a run are none, or the
    embedding request for the question, or that request followed by one
    query for 4 results. *)
Theorem retrieve_context_read_only (question : str) (w : world (scalar sv)) :
  let r := retrieve_context (sv:=sv) question w in
  r.1 ≠ Diverge
  ∧ collection r.2 = collection w
  ∧ dimension r.2 = dimension w
  ∧ (new_events w r.2 = []
     ∨ new_events w r.2 = [EmbedCall [question]]
     ∨ ∃ q_embedding,
         new_events w r.2 = [EmbedCall [question]; QueryCall q_embedding 4]).
Proof.
  cbv zeta. rewrite retrieve_context_unfold.
  destruct (_ =? 0).
  - repeat split; [done|]. left. unfold new_events. by rewrite drop_all.
  - destruct (embedding_service _ _ _) as [[|q_embedding data]|];
      (repeat split; [done|]); right.
    + left. by apply new_events_app.
    + right. exists q_embedding. by apply new_events_app.
    + left. by apply new_events_app.
Qed.

(** X18: on a store that is not empty, with an embedding service that
    answers, [retrieve_context] requests the embedding of the question,
    queries the store with the first vector of the answer for 4 results, and
    returns the documents in the order of the store's ranking, joined by a
    blank line, or the "no relevant context" sentence when there is none. *)
Theorem retrieve_context_answer (question : str) (w : world (scalar sv))
    (q_embedding : list (scalar sv)) (data : list (list (scalar sv))) :
  size (collection w) ≠ 0%nat ->
  embedding_service sv (trace w) [question] = Some (q_embedding :: data) ->
  let r := retrieve_context (sv:=sv) question w in
  let documents := nearest sv (collection w) q_embedding 4 in
  r.1 = Return (if truthy documents then join [newline; newline] documents
                else no_relevant_context)
  ∧ new_events w r.2 = [EmbedCall [question]; QueryCall q_embedding 4].
Proof.
  intros Hsize Hservice. cbv zeta. rewrite retrieve_context_unfold, Hservice.
  destruct (Z.eqb_spec (Z.of_nat (size (collection w))) 0); [lia|].
  split; [done|]. by apply new_events_app.
Qed.

(** X19: when [retrieve_context] raises, the store was not queried: the one
    call of the run is the embedding request, and either the service raised
    or it answered no vector. *)
Theorem retrieve_context_failure (question : str) (w : world (scalar sv)) (e : exn) :
  let r := retrieve_context (sv:=sv) question w in
  r.1 = Raise e ->
  new_events w r.2 = [EmbedCall [question]]
  ∧ ((e = EmbeddingServiceError ∧ embedding_service sv (trace w) [question] = None)
     ∨ (e = IndexError ∧ embedding_service sv (trace w) [question] = Some [])).
Proof.
  cbv zeta. rewrite retrieve_context_unfold.
  destruct (_ =? 0); [done|].
  destruct (embedding_service _ _ _) as [[|q_embedding data]|]; [|done|];
    intros He; cbn [fst] in He; simplify_eq; (split; [by apply new_events_app|]).
  - right. by split.
  - left. by split.
Qed.

(** X20: every document the store's query returns appears verbatim in the
    context [retrieve_context] returns. *)
Theorem retrieve_context_contains (question : str) (w : world (scalar sv))
    (q_embedding : list (scalar sv)) (data : list (list (scalar sv))) (d : str) :
  size (collection w) ≠ 0%nat ->
  embedding_service sv (trace w) [question] = Some (q_embedding :: data) ->
  d ∈ nearest sv (collection w) q_embedding 4 ->
  ∃ context pre post,
    (retrieve_context (sv:=sv) question w).1 = Return context
    ∧ context = pre ++ d ++ post.
Proof.
  intros Hsize Hservice Hin. rewrite retrieve_context_unfold, Hservice.
  destruct (Z.eqb_spec (Z.of_nat (size (collection w))) 0); [lia|].
  cbv zeta. cbn [fst].
  destruct (nearest sv (collection w) q_embedding 4) as [|x l] eqn:Hdocs;
    [by apply elem_of_nil in Hin|].
  cbn [truthy].
  destruct (join_substring [newline; newline] d (x :: l) Hin) as (pre & post & Heq).
  by exists (join [newline; newline] (x :: l)), pre, post.
Qed.
End Retrieval.

(** ** Runs of the retrieval pipeline on concrete inputs *)

Lemma invoice_world_size : size (collection invoice_world) ≠ 0%nat.
Proof. by vm_compute. Qed.

Lemma retrieve_context_answer_witness :
  let question := lit "total due?" in
  let r := retrieve_context (sv:=sample_services) question invoice_world in
  let documents := nearest sample_services (collection invoice_world) [10] 4 in
  size (collection invoice_world) ≠ 0%nat
  ∧ embedding_service sample_services (trace invoice_world) [question] = Some [[10]]
  ∧ r.1 = Return (if truthy documents then join [newline; newline] documents
                  else no_relevant_context)
  ∧ new_events invoice_world r.2 = [EmbedCall [question]; QueryCall [10] 4].
Proof.
  split; [exact invoice_world_size|]. split; [reflexivity|].
  exact (retrieve_context_answer sample_services (lit "total due?") invoice_world
           [10] [] invoice_world_size eq_refl).
Defined.

Lemma retrieve_context_failure_witness :
  let question := lit "total due?" in
  let r := retrieve_context (sv:=service_down) question invoice_world in
  r.1 = Raise EmbeddingServiceError
  ∧ new_events invoice_world r.2 = [EmbedCall [question]]
  ∧ ((EmbeddingServiceError = EmbeddingServiceError
      ∧ embedding_service service_down (trace invoice_world) [question] = None)
     ∨ (EmbeddingServiceError = IndexError
        ∧ embedding_service service_down (trace invoice_world) [question] = Some [])).
Proof.
  assert ((retrieve_context (sv:=service_down) (lit "total due?") invoice_world).1
          = Raise EmbeddingServiceError) as Hraise by (by vm_compute).
  split; [exact Hraise|].
  exact (retrieve_context_failure service_down (lit "total due?") invoice_world
           EmbeddingServiceError Hraise).
Defined.

Lemma retrieve_context_contains_witness :
  let question := lit "total due?" in
  let d := page_entry 0 invoice_pdf in
  size (collection invoice_world) ≠ 0%nat
  ∧ embedding_service sample_services (trace invoice_world) [question] = Some [[10]]
  ∧ d ∈ nearest sample_services (collection invoice_world) [10] 4
  ∧ ∃ context pre post,
      (retrieve_context (sv:=sample_services) question invoice_world).1 = Return context
      ∧ context = pre ++ d ++ post.
Proof.
  assert (page_entry 0 invoice_pdf
          ∈ nearest sample_services (collection invoice_world) [10] 4) as Hin
    by (vm_compute; apply list_elem_of_here).
  split; [exact invoice_world_size|]. split; [reflexivity|]. split; [exact Hin|].
  exact (retrieve_context_contains sample_services (lit "total due?") invoice_world
           [10] [] (page_entry 0 invoice_pdf) invoice_world_size eq_refl Hin).
Defined.

(** ** The upload handler *)

Lemma error_boxes_app (evs evs' : list ui_event) :
  error_boxes (evs ++ evs') = error_boxes evs ++ error_boxes evs'.
Proof. apply omap_app. Qed.

Lemma progress_shown_app (evs evs' : list ui_event) :
  progress_shown (evs ++ evs') = progress_shown evs ++ progress_shown evs'.
Proof. apply omap_app. Qed.

Lemma error_boxes_returned (evs : list ui_event) (text : str) (a b : nat) :
  error_boxes ((evs ++ [StatusText text]) ++ [Progress a b]) = error_boxes evs.
Proof. rewrite !error_boxes_app. cbn. by rewrite !app_nil_r. Qed.

Lemma error_boxes_raised (evs : list ui_event) (text name : str) (e : exn) (a b : nat) :
  error_boxes ((evs ++ [StatusText text]) ++ [ErrorBox name e; Progress a b])
  = error_boxes evs ++ [(name, e)].
Proof. rewrite !error_boxes_app. cbn. by rewrite !app_nil_r. Qed.

Lemma progress_shown_returned (evs : list ui_event) (text : str) (a b : nat) :
  progress_shown ((evs ++ [StatusText text]) ++ [Progress a b])
  = progress_shown evs ++ [(a, b)].
Proof. rewrite !progress_shown_app. cbn. by rewrite !app_nil_r. Qed.

Lemma progress_shown_raised (evs : list ui_event) (text name : str) (e : exn)
    (a b : nat) :
  progress_shown ((evs ++ [StatusText text]) ++ [ErrorBox name e; Progress a b])
  = progress_shown evs ++ [(a, b)].
Proof. rewrite !progress_shown_app. cbn. by rewrite !app_nil_r. Qed.

Section Upload.
Context (sv : services).

(** What a run of [index_pdf] does to the size of the collection. *)
Lemma index_pdf_outcome_bounds (pdf_file : bytes) (filename : str)
    (w : world (scalar sv)) :
  let r := index_pdf (sv:=sv) pdf_file filename w in
  match r.1 with
  | Return n =>
      0 <= n ∧ Z.of_nat (size (collection r.2)) <= Z.of_nat (size (collection w)) + n
  | Raise e => collection r.2 = collection w
  | Diverge => False
  end.
Proof.
  cbv zeta. index_pdf_cases; try done; [split; lia|].
  pose proof (batch_lengths filename (path_stem sv filename)
                (default_chunks (join_pages page_texts))) as [_ Hids].
  fold (pdf_batch sv filename page_texts) in Hids. rewrite Hdocs in Hids.
  pose proof (size_insert_entries _ _ _ _ (collection w) Hsame
                (batch_ids_NoDup _ _ _)) as [Hle _].
  rewrite Hids in Hle. cbn [length] in Hle |- *. split; lia.
Qed.

Lemma for_each_cons {A B} (body : A -> B -> M sv A) (x : B) (l : list B) (a : A)
    (w : world (scalar sv)) :
  for_each body (x :: l) a w
  = match body a x w with
    | (Return a', w') => for_each body l a' w'
    | (Raise e, w') => (Raise e, w')
    | (Diverge, w') => (Diverge, w')
    end.
Proof. reflexivity. Qed.

Lemma upload_step_unfold (n_files : nat) (st : upload_state) (i : nat)
    (file : uploaded_file) (w : world (scalar sv)) :
  upload_step (sv:=sv) n_files st (i, file) w
  = let shown := ui st ++ [StatusText (lit "Processing: " ++ file_name file)] in
    match index_pdf (sv:=sv) (file_content file) (file_name file) w with
    | (Return chunks, w') =>
        (Return (UploadState (total_chunks st + chunks) (indexed_count st + 1)
                   (indexed_files st ++ [file_name file])
                   (shown ++ [Progress (i + 1) n_files])), w')
    | (Raise e, w') =>
        (Return (UploadState (total_chunks st) (indexed_count st) (indexed_files st)
                   (shown ++ [ErrorBox (file_name file) e; Progress (i + 1) n_files])),
         w')
    | (Diverge, w') => (Diverge, w')
    end.
Proof. reflexivity. Qed.

(** The loop of the handler, from any file index and any values of its
    variables. *)
Lemma upload_loop (n_files : nat) (files : list uploaded_file) :
  ∀ (k : nat) (st : upload_state) (w : world (scalar sv)),
    let r := for_each (upload_step (sv:=sv) n_files) (enumerate_from k files) st w in
    ∃ st' names errs,
      r.1 = Return st'
      ∧ indexed_files st' = indexed_files st ++ names
      ∧ error_boxes (ui st') = error_boxes (ui st) ++ errs
      ∧ indexed_count st' = indexed_count st + Z.of_nat (length names)
      ∧ names ++ errs.*1 ≡ₚ file_name <$> files
      ∧ names `sublist_of` (file_name <$> files)
      ∧ progress_shown (ui st')
        = progress_shown (ui st)
          ++ ((λ i, ((i + 1)%nat, n_files)) <$> seq k (length files))
      ∧ total_chunks st <= total_chunks st'
      ∧ Z.of_nat (size (collection r.2))
        <= Z.of_nat (size (collection w)) + (total_chunks st' - total_chunks st).
Proof.
  induction files as [|file files IH]; intros k st w; cbv zeta.
  - exists st, [], []. cbn. rewrite ?app_nil_r. repeat split; try done; lia.
  - cbn [enumerate_from]. rewrite for_each_cons, upload_step_unfold. cbv zeta.
    pose proof (index_pdf_outcome_bounds (file_content file) (file_name file) w) as Hrun.
    cbv zeta in Hrun.
    destruct (index_pdf (file_content file) (file_name file) w) as [[chunks|e|] w1];
      cbn [fst snd] in Hrun; [| |done].
    + destruct Hrun as [Hpos Hsize].
      match goal with
      | |- context [for_each _ _ ?s w1] =>
          destruct (IH (S k) s w1)
            as (st' & names & errs & Hret & Hfiles & Herrs & Hcount & Hperm & Hsub
                & Hprog & Htotal & Hsz)
      end.
      cbn [indexed_files ui indexed_count total_chunks] in *.
      rewrite error_boxes_returned in Herrs.
      rewrite progress_shown_returned in Hprog.
      exists st', (file_name file :: names), errs.
      split; [done|]. split; [by rewrite Hfiles, <- app_assoc|].
      split; [done|]. split; [rewrite Hcount; cbn [length]; lia|].
      split; [cbn; by rewrite Hperm|]. split; [cbn; by apply sublist_skip|].
      split; [rewrite Hprog; cbn; by rewrite <- app_assoc|].
      split; lia.
    + match goal with
      | |- context [for_each _ _ ?s w1] =>
          destruct (IH (S k) s w1)
            as (st' & names & errs & Hret & Hfiles & Herrs & Hcount & Hperm & Hsub
                & Hprog & Htotal & Hsz)
      end.
      cbn [indexed_files ui indexed_count total_chunks] in *.
      rewrite error_boxes_raised in Herrs.
      rewrite progress_shown_raised in Hprog. rewrite Hrun in Hsz.
      exists st', names, ((file_name file, e) :: errs).
      split; [done|]. split; [done|].
      split; [by rewrite Herrs, <- app_assoc|]. split; [done|].
      split; [cbn; by rewrite <- Permutation_middle, Hperm|].
      split; [cbn; by apply sublist_cons|].
      split; [rewrite Hprog; cbn; by rewrite <- app_assoc|].
      split; lia.
Qed.
End Upload.

Section UploadRuns.
Context (sv : services).

Lemma index_all_cons (file : uploaded_file) (files : list uploaded_file)
    (w : world (scalar sv)) :
  index_all (sv:=sv) (file :: files) w
  = let r := index_pdf (sv:=sv) (file_content file) (file_name file) w in
    ((file, r.1) :: (index_all files r.2).1, (index_all files r.2).2).
Proof. reflexivity. Qed.

(** Every run returns or raises. *)
Lemma index_all_lengths (files : list uploaded_file) (w : world (scalar sv)) :
  (length (returned_names (index_all (sv:=sv) files w).1)
   + length (raised_names (index_all (sv:=sv) files w).1))%nat
  = length files.
Proof.
  revert w. induction files as [|file files IH]; intros w; [done|].
  rewrite index_all_cons. cbv zeta. cbn [fst length].
  pose proof (index_pdf_outcome_bounds sv (file_content file) (file_name file) w) as Hrun.
  cbv zeta in Hrun. specialize (IH (index_pdf (file_content file) (file_name file) w).2).
  unfold returned_names, raised_names in *.
  destruct (index_pdf (file_content file) (file_name file) w).1; [| |done];
    cbn; cbn in IH; lia.
Qed.

(** The loop of the handler runs [index_pdf] on the files one after the
    other; its variables record the outcomes of these runs. *)
Lemma upload_loop_runs (n_files : nat) (files : list uploaded_file) :
  ∀ (k : nat) (st : upload_state) (w : world (scalar sv)),
    let runs := (index_all (sv:=sv) files w).1 in
    ∃ st',
      for_each (upload_step (sv:=sv) n_files) (enumerate_from k files) st w
      = (Return st', (index_all (sv:=sv) files w).2)
      ∧ indexed_files st' = indexed_files st ++ returned_names runs
      ∧ error_boxes (ui st') = error_boxes (ui st) ++ raised_names runs
      ∧ indexed_count st' = indexed_count st + Z.of_nat (length (returned_names runs))
      ∧ total_chunks st' = total_chunks st + returned_total runs.
Proof.
  induction files as [|file files IH]; intros k st w; cbv zeta.
  - exists st. cbn. rewrite !app_nil_r. repeat split; lia.
  - cbn [enumerate_from]. rewrite for_each_cons, upload_step_unfold, index_all_cons.
    cbv zeta. cbn [fst snd].
    pose proof (index_pdf_outcome_bounds sv (file_content file) (file_name file) w) as Hrun.
    cbv zeta in Hrun.
    destruct (index_pdf (file_content file) (file_name file) w) as [[chunks|e|] w1];
      cbn [fst snd] in Hrun |- *; [| |done].
    + match goal with
      | |- context [for_each _ _ ?s w1] =>
          destruct (IH (S k) s w1) as (st' & Hrun' & Hfiles & Herrs & Hcount & Htotal)
      end.
      cbn [indexed_files ui indexed_count total_chunks] in *.
      rewrite error_boxes_returned in Herrs.
      exists st'. unfold returned_names, raised_names, returned_total in *.
      cbn. cbn in Hfiles, Herrs, Hcount, Htotal.
      split; [done|]. split; [by rewrite Hfiles, <- app_assoc|].
      split; [done|]. split; lia.
    + match goal with
      | |- context [for_each _ _ ?s w1] =>
          destruct (IH (S k) s w1) as (st' & Hrun' & Hfiles & Herrs & Hcount & Htotal)
      end.
      cbn [indexed_files ui indexed_count total_chunks] in *.
      rewrite error_boxes_raised in Herrs.
      exists st'. unfold returned_names, raised_names, returned_total in *.
      cbn. cbn in Hfiles, Herrs, Hcount, Htotal.
      split; [done|]. split; [done|].
      split; [by rewrite Herrs, <- app_assoc|]. split; lia.
Qed.
End UploadRuns.

Section UploadHandler.
Context (sv : services).

(** A run of the handler. *)
Lemma upload_and_index_run (uploaded_files : list uploaded_file)
    (session_files : list str) (w : world (scalar sv)) :
  let r := upload_and_index (sv:=sv) uploaded_files session_files w in
  ∃ st' names,
    r.1 = Return st'
    ∧ indexed_files st' = session_files ++ names
    ∧ indexed_count st' = Z.of_nat (length names)
    ∧ names ++ (error_boxes (ui st')).*1 ≡ₚ file_name <$> uploaded_files
    ∧ names `sublist_of` (file_name <$> uploaded_files)
    ∧ progress_shown (ui st')
      = (λ i, ((i + 1)%nat, length uploaded_files)) <$> seq 0 (length uploaded_files)
    ∧ 0 <= total_chunks st'
    ∧ Z.of_nat (size (collection r.2))
      <= Z.of_nat (size (collection w)) + total_chunks st'.
Proof.
  cbv zeta. unfold upload_and_index.
  destruct uploaded_files as [|file files] eqn:Hfiles.
  - exists (UploadState 0 0 session_files []), []. cbn.
    rewrite app_nil_r. repeat split; try done. lia.
  - rewrite <- Hfiles. cbn [truthy]. replace (truthy uploaded_files) with true
      by (by subst).
    unfold mbind, M_bind, mret, M_ret, enumerate.
    destruct (upload_loop sv (length uploaded_files) uploaded_files 0
                (UploadState 0 0 session_files []) w)
      as (st' & names & errs & Hret & Hnames & Herrs & Hcount & Hperm & Hsub
          & Hprog & Htotal & Hsz).
    destruct (for_each _ _ _ w) as [out w'] eqn:Hrun.
    cbn [fst snd] in Hret, Hsz. subst out.
    cbn [indexed_files indexed_count total_chunks ui error_boxes progress_shown omap]
      in Hnames, Herrs, Hcount, Hprog, Htotal, Hsz.
    exists (UploadState (total_chunks st') (indexed_count st') (indexed_files st')
              (ui st' ++ [StatusText []; SuccessBox (indexed_count st') (total_chunks st')])),
      names.
    cbn [fst snd indexed_files indexed_count total_chunks ui].
    rewrite error_boxes_app, progress_shown_app. cbn [error_boxes progress_shown omap].
    rewrite !app_nil_r.
    split; [done|]. split; [done|]. split; [lia|].
    split; [by rewrite Herrs|]. split; [done|]. split; [done|]. split; lia.
Qed.

(** X21: the handler never lets an exception of [index_pdf] escape: it
    runs [index_pdf] on every uploaded file, in upload order, each run in the
    state the run before left, whatever the outcome of that run.  The names
    it appends to the list of indexed files are those of the files whose run
    returned, the error boxes name the files whose run raised, each with its
    exception, [indexed_count] counts the former and [total_chunks] adds up
    what their runs returned; every file is in one of the two lists. *)
Theorem upload_and_index_isolation (uploaded_files : list uploaded_file)
    (session_files : list str) (w : world (scalar sv)) :
  let r := upload_and_index (sv:=sv) uploaded_files session_files w in
  let runs := (index_all (sv:=sv) uploaded_files w).1 in
  ∃ st',
    r.1 = Return st'
    ∧ r.2 = (index_all (sv:=sv) uploaded_files w).2
    ∧ indexed_files st' = session_files ++ returned_names runs
    ∧ error_boxes (ui st') = raised_names runs
    ∧ indexed_count st' = Z.of_nat (length (returned_names runs))
    ∧ total_chunks st' = returned_total runs
    ∧ indexed_count st' + Z.of_nat (length (error_boxes (ui st')))
      = Z.of_nat (length uploaded_files).
Proof.
  cbv zeta. unfold upload_and_index.
  destruct uploaded_files as [|file files] eqn:Hfiles.
  - exists (UploadState 0 0 session_files []). cbn.
    rewrite app_nil_r. repeat split; done.
  - rewrite <- Hfiles. replace (truthy uploaded_files) with true by (by subst).
    unfold mbind, M_bind, mret, M_ret, enumerate.
    destruct (upload_loop_runs sv (length uploaded_files) uploaded_files 0
                (UploadState 0 0 session_files []) w)
      as (st' & Hrun & Hnames & Herrs & Hcount & Htotal).
    rewrite Hrun.
    cbn [indexed_files indexed_count total_chunks ui] in Hnames, Herrs, Hcount, Htotal.
    change (error_boxes (ui st') = raised_names (index_all uploaded_files w).1) in Herrs.
    exists (UploadState (total_chunks st') (indexed_count st') (indexed_files st')
              (ui st' ++ [StatusText []; SuccessBox (indexed_count st') (total_chunks st')])).
    cbn [fst snd indexed_files indexed_count total_chunks ui].
    rewrite error_boxes_app.
    change (error_boxes [StatusText []; SuccessBox (indexed_count st') (total_chunks st')])
      with (@nil (str * exn)).
    rewrite app_nil_r.
    pose proof (index_all_lengths sv uploaded_files w) as Hlen.
    split; [done|]. split; [done|]. split; [done|]. split; [done|].
    split; [lia|]. split; [lia|]. rewrite Herrs. lia.
Qed.

(** X22: the total the handler reports bounds what it stored: [count()]
    grows by at most [total_chunks], which is not negative. *)
Theorem upload_and_index_total (uploaded_files : list uploaded_file)
    (session_files : list str) (w : world (scalar sv)) :
  let r := upload_and_index (sv:=sv) uploaded_files session_files w in
  ∃ st',
    r.1 = Return st'
    ∧ 0 <= total_chunks st'
    ∧ Z.of_nat (size (collection r.2))
      <= Z.of_nat (size (collection w)) + total_chunks st'.
Proof.
  destruct (upload_and_index_run uploaded_files session_files w)
    as (st' & names & Hret & _ & _ & _ & _ & _ & Htotal & Hsz).
  by exists st'.
Qed.

(** X23: the progress bar advances once for each uploaded file, whether its
    indexing returned or raised: the fractions shown are [1/n], [2/n], ...,
    [n/n] for the [n] files. *)
Theorem upload_and_index_progress (uploaded_files : list uploaded_file)
    (session_files : list str) (w : world (scalar sv)) :
  ∃ st',
    (upload_and_index (sv:=sv) uploaded_files session_files w).1 = Return st'
    ∧ progress_shown (ui st')
      = (λ i, ((i + 1)%nat, length uploaded_files)) <$> seq 0 (length uploaded_files).
Proof.
  destruct (upload_and_index_run uploaded_files session_files w)
    as (st' & names & Hret & _ & _ & _ & _ & Hprog & _).
  by exists st'.
Qed.
End UploadHandler.

(** ** Ids of different files *)

Lemma string_of_uint_digits (d : Decimal.uint) :
  Forall (λ c, c ≠ "_"%char) (list_ascii_of_string (NilEmpty.string_of_uint d)).
Proof. induction d; simpl; constructor; done. Qed.

Lemma str_of_nat_no_underscore (i : nat) : "_"%char ∉ str_of_nat i.
Proof.
  unfold str_of_nat, lit, NilZero.string_of_uint. intros Hin.
  assert (Forall (λ c, c ≠ "_"%char)
            (list_ascii_of_string
               match Nat.to_uint i with
               | Decimal.Nil => "0"%string
               | _ => NilEmpty.string_of_uint (Nat.to_uint i)
               end)) as Hall.
  { destruct (Nat.to_uint i) eqn:Hd; try (rewrite <- Hd; apply string_of_uint_digits).
    by repeat constructor. }
  rewrite Forall_forall in Hall. by apply Hall in Hin.
Qed.

Lemma split_at_last (c : ascii) (x x' y y' : str) :
  c ∉ y -> c ∉ y' -> x ++ c :: y = x' ++ c :: y' -> x = x' ∧ y = y'.
Proof.
  intros Hy Hy' Heq.
  assert (reverse y ++ c :: reverse x = reverse y' ++ c :: reverse x') as Hrev.
  { apply (f_equal reverse) in Heq.
    by rewrite !reverse_app, !reverse_cons, <- !app_assoc in Heq. }
  assert (c ∉ reverse y) as Hr by (by rewrite elem_of_reverse).
  assert (c ∉ reverse y') as Hr' by (by rewrite elem_of_reverse).
  clear Heq Hy Hy'.
  assert (reverse y = reverse y' ∧ reverse x = reverse x') as [Hry Hrx].
  { revert Hrev Hr Hr'. generalize (reverse y) (reverse y') (reverse x) (reverse x').
    intros a. induction a as [|h a IH]; intros [|h' a'] b b' Heq Ha Ha';
      simpl in *; simplify_eq.
    - done.
    - exfalso. apply Ha'. apply list_elem_of_here.
    - exfalso. apply Ha. apply list_elem_of_here.
    - apply not_elem_of_cons in Ha as [_ Ha]. apply not_elem_of_cons in Ha' as [_ Ha'].
      destruct (IH a' b b') as [-> ->]; done. }
  split; by apply (inj reverse).
Qed.

(** X24: the chunk id determines the stem and the index: the ids of two
    files are the same only when the names of the files have the same stem
    and the chunks the same index. *)
Theorem chunk_id_inj_stem (stem stem' : str) (i j : nat) :
  chunk_id stem i = chunk_id stem' j -> stem = stem' ∧ i = j.
Proof.
  unfold chunk_id. intros Heq.
  apply split_at_last in Heq as [-> Hij]; [|apply str_of_nat_no_underscore..].
  split; [done|]. by apply str_of_nat_inj.
Qed.

Lemma chunk_id_inj_stem_witness :
  chunk_id (lit "invoice") 0 = chunk_id (lit "invoice") 0
  ∧ lit "invoice" = lit "invoice" ∧ 0%nat = 0%nat.
Proof.
  split; [reflexivity|].
  exact (chunk_id_inj_stem (lit "invoice") (lit "invoice") 0 0 eq_refl).
Defined.
